(** * VTIL-Common/io/formatting.hpp: a shallow embedding and its properties

    The header turns values into narrow strings ([as_string]), adapts
    arguments for the printf family ([fix_parameter], [str]), keeps
    temporaries alive in a per-thread ring ([impl::buffer_string]),
    cleans type names ([impl::fix_type_name]) and prints integers in
    signed hexadecimal ([hex], [offset]).

    A [std::string] is a list of 8-bit characters, a [std::wstring] a list
    of code units; integers are in [Z] with the wrap-around of the C++
    type written out; binary32 arithmetic is the one of [SpecFloat]. *)

From Stdlib Require Import ZArith Ascii String Lia.
From Stdlib Require Import SpecFloat.
From stdpp Require Import base list gmap.

Open Scope Z_scope.

(** ** The pieces of the C++ standard library the header calls *)

Module Std.

(** [std::string]: a sequence of [char]. *)
Abbreviation std_string := (list ascii).

(** A string literal of the source. *)
Definition lit (s : string) : std_string := list_ascii_of_string s.
Global Arguments lit : simpl never.

(** [strlen] of a literal that holds no NUL. *)
Definition strlen (s : std_string) : nat := length s.

(** [s.starts_with( p )]. *)
Fixpoint starts_with (s p : std_string) {struct p} : bool :=
  match p, s with
  | [], _ => true
  | _ :: _, [] => false
  | c :: p', d :: s' => Ascii.eqb c d && starts_with s' p'
  end.

(** [s.substr( pos )]; the header only calls it with [pos <= s.size()]. *)
Definition substr (s : std_string) (pos : nat) : std_string := drop pos s.

(** [s.substr( pos, n )]. *)
Definition substr_n (s : std_string) (pos n : nat) : std_string :=
  take n (drop pos s).

(** [s[ i ] == c] for [i < s.size()]. *)
Definition char_at_is (s : std_string) (i : nat) (c : ascii) : bool :=
  match s !! i with
  | Some d => Ascii.eqb d c
  | None => false
  end.

(** [s.empty()]. *)
Definition empty (s : std_string) : bool :=
  match s with [] => true | _ :: _ => false end.

(** [std::wstring]: a sequence of [wchar_t] code units. *)
Abbreviation std_wstring := (list Z) (only parsing).

(** Conversion of a code unit to [char]: the low eight bits. *)
Definition narrow (w : Z) : ascii := ascii_of_N (Z.to_N (w mod 256)).

(** [strlen] / [wcslen] on the memory a pointer designates: the number
    of units before the first zero one. *)
Fixpoint c_strlen (mem : std_string) : nat :=
  match mem with
  | [] => O
  | c :: mem' => if Ascii.eqb c zero then O else S (c_strlen mem')
  end.

Fixpoint wcslen (mem : std_wstring) : nat :=
  match mem with
  | [] => O
  | c :: mem' => if c =? 0 then O else S (wcslen mem')
  end.

(** *** Integers *)

Definition wrap_int64 (z : Z) : Z := (z + 2 ^ 63) mod 2 ^ 64 - 2 ^ 63.
Definition wrap_uint64 (z : Z) : Z := z mod 2 ^ 64.

Definition in_int64 (z : Z) : Prop := - 2 ^ 63 <= z < 2 ^ 63.
Definition in_uint64 (z : Z) : Prop := 0 <= z < 2 ^ 64.

Definition digit_char (d : Z) : ascii :=
  nth (Z.to_nat d) (lit "0123456789abcdef") "0"%char.

(** The digits of [n >= 0] in [base], most significant first, no
    padding; [fuel] bounds their number. *)
Fixpoint digits_fuel (fuel : nat) (base n : Z) (acc : std_string)
  : std_string :=
  match fuel with
  | O => acc
  | S fuel' =>
      let acc' := digit_char (n mod base) :: acc in
      if n / base =? 0 then acc' else digits_fuel fuel' base (n / base) acc'
  end.

(** What [%llx] prints for a 64-bit unsigned value: at most 16 digits. *)
Definition lower_hex (n : Z) : std_string := digits_fuel 16 16 n [].

(** Decimal digits of any [n >= 0]. *)
Definition decimal (n : Z) : std_string :=
  digits_fuel (S (Z.to_nat (Z.log2 n))) 10 n [].

(** [std::to_string] on an integer. *)
Definition to_string (n : Z) : std_string :=
  if n <? 0 then "-"%char :: decimal (- n) else decimal n.

(** *** printf family

    A variadic integer argument read by [%llx] is taken as an
    [unsigned long long].  [format] is the host's formatter on the
    formats the header itself passes to it for integers, those of [hex],
    [offset] and [static_type_name]: plain characters and [%llx].  No
    other directive is interpreted ([%d], [%s], [%%] are copied as they
    stand), so on a format with one of them [format] is not what the
    host prints. *)
Fixpoint format (fmt : std_string) (args : list Z) : std_string :=
  match fmt with
  | [] => []
  | c :: rest =>
      match c, rest, args with
      | "%"%char, "l"%char :: "l"%char :: "x"%char :: rest', a :: args' =>
          lower_hex (wrap_uint64 a) ++ format rest' args'
      | _, _, _ => c :: format rest args
      end
  end.

(** [snprintf( buf, cap, fmt, args... )]: the characters stored in
    [buf] (without the terminator) and the returned length. *)
Definition snprintf (cap : nat) (fmt : std_string) (args : list Z)
  : std_string * nat :=
  let out := format fmt args in (take (cap - 1) out, length out).

(** *** binary32 and [%.2f] *)

Definition float : Type := spec_float.

(** Conversion of an integer to [float], to nearest even. *)
Definition float_of_int (z : Z) : float := binary_normalize 24 128 z 0 false.

Definition fdiv (a b : float) : float := SFdiv 24 128 a b.

(** [|m * 2^e| * 100] rounded to the nearest integer, ties to even. *)
Definition hundredths (m : positive) (e : Z) : Z :=
  if 0 <=? e then Z.pos m * 2 ^ e * 100
  else
    let d := 2 ^ (- e) in
    let q := (Z.pos m * 100) / d in
    let r := (Z.pos m * 100) mod d in
    if (d <? 2 * r) || ((d =? 2 * r) && Z.odd q) then q + 1 else q.

Definition two_digits (n : Z) : std_string :=
  [digit_char (n / 10); digit_char (n mod 10)].

Definition sign_text (s : bool) : std_string := if s then lit "-" else [].

(** The text [%.2f] produces ([float] is promoted to [double] without
    change of value).  A NaN of this model is the result of a division,
    of 0 by 0: the processor of the build gives it with the sign bit
    set, and the C library prints that sign. *)
Definition printf_2f (f : float) : std_string :=
  match f with
  | S754_nan => lit "-nan"
  | S754_infinity s => sign_text s ++ lit "inf"
  | S754_zero s => sign_text s ++ lit "0.00"
  | S754_finite s m e =>
      let h := hundredths m e in
      sign_text s ++ decimal (h / 100) ++ lit "." ++ two_digits (h mod 100)
  end.

End Std.
Import Std.

(** ** namespace vtil::format::impl *)

Module impl.

Definition remove_list : list std_string :=
  [ lit "struct "; lit "class "; lit "enum "; lit "vtil::" ].

(** The inner loop of [fix_type_name] for one entry [str]:
    [for ( size_t i = 0; i < in.size(); i++ )], where the body may
    shorten [in].  Each round moves [i] one further, so [in.size()]
    rounds always suffice; [fuel] counts them. *)
Fixpoint strip_loop (fuel : nat) (str : std_string) (i : nat)
         (in_ : std_string) : std_string :=
  match fuel with
  | O => in_
  | S fuel' =>
      if decide (i < length in_)%nat then
        let in' :=
          if char_at_is in_ i "<" && starts_with (substr in_ (i + 1)) str
          then substr_n in_ 0 (i + 1) ++ substr in_ (i + 1 + strlen str)
          else in_ in
        strip_loop fuel' str (i + 1) in'
      else in_
  end.

Definition strip_after_lt (str in_ : std_string) : std_string :=
  strip_loop (length in_) str 0 in_.

(** The loop over [remove_list], with its early return into the
    recursive call.  [self] is [fix_type_name] on the shorter tail. *)
Fixpoint fix_entries (self : std_string -> std_string)
         (entries : list std_string) (in_ : std_string) : std_string :=
  match entries with
  | [] => in_
  | str :: rest =>
      if starts_with in_ str
      then self (substr in_ (strlen str))
      else fix_entries self rest (strip_after_lt str in_)
  end.

(** [fix_type_name] recurses on a strictly shorter string; [fuel] bounds
    the depth of that recursion. *)
Fixpoint fix_type_name_fuel (fuel : nat) (in_ : std_string) : std_string :=
  match fuel with
  | O => in_
  | S fuel' => fix_entries (fix_type_name_fuel fuel') remove_list in_
  end.

Definition fix_type_name (in_ : std_string) : std_string :=
  fix_type_name_fuel (S (length in_)) in_.

(** [buffer_string<T>]: the two [static thread_local] variables of one
    thread, [ring_buffer[ 16 ]] and [index], for strings over the
    character type [T]. *)
Record ring_state (T : Type) : Type :=
  { ring_buffer : list (list T); index : Z }.

Arguments ring_buffer {T}.
Arguments index {T}.

(** [std::size( ring_buffer )]. *)
Definition ring_size : Z := 16.

(** The variables as a thread first finds them. *)
Definition ring_init {T : Type} : ring_state T :=
  {| ring_buffer := replicate (Z.to_nat ring_size) []; index := 0 |}.

(** One call on the thread that owns [st].  The returned pointer
    [ref.data()] is given as the number of the slot it points into.
    [++index % std::size( ring_buffer )] is computed in [size_t]. *)
Definition buffer_string {T : Type} (value : list T) (st : ring_state T)
  : nat * ring_state T :=
  let ref := Z.to_nat (index st) in
  let ring' := <[ ref := value ]> (ring_buffer st) in
  let index' := wrap_uint64 (index st + 1) mod ring_size in
  (ref, {| ring_buffer := ring'; index := index' |}).

(** The variables of all threads, by thread; a thread that has not
    called yet has no entry. *)
Definition thread_state {T : Type} (t : nat) (store : gmap nat (ring_state T))
  : ring_state T :=
  default ring_init (store !! t).

Definition buffer_string_on {T : Type} (t : nat) (value : list T)
           (store : gmap nat (ring_state T))
  : nat * gmap nat (ring_state T) :=
  let '(ptr, st') := buffer_string value (thread_state t store) in
  (ptr, <[ t := st' ]> store).

(** A sequence of calls, each by some thread. *)
Definition run {T : Type} (calls : list (nat * list T))
           (store : gmap nat (ring_state T)) : gmap nat (ring_state T) :=
  foldl (fun store c => (buffer_string_on c.1 c.2 store).2) store calls.

(** What a pointer into slot [ptr] of thread [t] reads. *)
Definition slot {T : Type} (t ptr : nat) (store : gmap nat (ring_state T))
  : option (list T) :=
  ring_buffer (thread_state t store) !! ptr.

Definition calls_on {T : Type} (t : nat) (calls : list (nat * list T)) : nat :=
  length (filter (fun c => c.1 = t) calls).

End impl.
Import impl.

(** ** namespace vtil::format *)

(** *** Durations *)

(** The tick period of a [std::chrono::duration] type, [num / den]
    seconds, both positive.  Only integer representations are covered. *)
Record period : Type := { num : Z; den : Z }.

Definition hours : period := {| num := 3600; den := 1 |}.
Definition minutes : period := {| num := 60; den := 1 |}.
Definition seconds : period := {| num := 1; den := 1 |}.
Definition milliseconds : period := {| num := 1; den := 1000 |}.
Definition microseconds : period := {| num := 1; den := 1000000 |}.
Definition nanoseconds : period := {| num := 1; den := 1000000000 |}.

(** The count of [std::chrono::duration_cast<base_type>( unit{ 1 } )]:
    the quotient of the two periods, truncated. *)
Definition duration_cast_one (unit base : period) : Z :=
  (num unit * den base) / (den unit * num base).

(** The lambda [flt2str]: [snprintf( buffer, 32, "%.2f", f )]. *)
Definition flt2str (f : float) : std_string := take 31 (printf_2f f).

(** What the branch uses of the representation [R] of [base_type]:
    [one unit] is the count of [duration_cast<base_type>( unit{ 1 } )],
    [greater x dur] is [x > dur], and [quotient x dur] is the [float]
    that [x.count() / float( dur.count() )] hands to [flt2str]. *)
Record duration_rep (R : Type) : Type :=
  { one : period -> R;
    greater : R -> R -> bool;
    quotient : R -> R -> float }.

Arguments one {R}.
Arguments greater {R}.
Arguments quotient {R}.

(** A duration type with integer ticks of period [base]. *)
Definition integer_ticks (base : period) : duration_rep Z :=
  {| one := fun unit => duration_cast_one unit base;
     greater := fun x dur => dur <? x;
     quotient := fun x dur => fdiv (float_of_int x) (float_of_int dur) |}.

(** The table [durations]. *)
Definition durations {R : Type} (rep : duration_rep R)
  : list (R * std_string * bool) :=
  [ (one rep hours,        lit "hrs", false);
    (one rep minutes,      lit "min", false);
    (one rep seconds,      lit "sec", false);
    (one rep milliseconds, lit "ms",  false);
    (one rep nanoseconds,  lit "ns",  true) ].

(** [for ( auto& [dur, name, last] : durations )]; [None] stands for
    leaving the loop, that is for reaching [unreachable()]. *)
Fixpoint duration_loop {R : Type} (rep : duration_rep R) (x : R)
         (table : list (R * std_string * bool)) : option std_string :=
  match table with
  | [] => None
  | (dur, name, last) :: rest =>
      if last || greater rep x dur
      then Some (flt2str (quotient rep x dur) ++ name)
      else duration_loop rep x rest
  end.

Definition as_string_duration {R : Type} (rep : duration_rep R) (x : R)
  : option std_string :=
  duration_loop rep x (durations rep).

(** *** The dispatcher

    What the compile-time tests of [as_string<T>] see of [T], each test
    on its own.  [std_to_string] is present when [StdStringConvertible<T>]
    holds, and is then [std::to_string]; [member_to_string] is present
    when [CustomStringConvertible<T>] holds, and is then [T::to_string].
    [decayed] is [std::decay_t<T>] as the [is_same_v] and
    [is_specialization_v] tests see it: these exclude one another.
    [range] is present when [Iterable<T>] holds; a [std::string] is one
    type that is both [is_string] and iterable.  Each case gives access
    to the data its branch reads. *)
Inductive traits (T : Type) : Type :=
| Traits (std_to_string : option (T -> std_string))
         (member_to_string : option (T -> std_string))
         (decayed : base_type T)
         (range : iteration T)
with base_type (T : Type) : Type :=
| is_string (chars : T -> std_string)
    (* std::string *)
| is_c_str (mem : T -> std_string)
    (* const char*: the bytes from the pointer on *)
| is_wstring (units : T -> std_wstring)
    (* std::wstring *)
| is_wc_str (mem : T -> std_wstring)
    (* const wchar_t*: the code units from the pointer on *)
| is_duration (R : Type) (rep : duration_rep R) (count : T -> R)
    (* std::chrono::duration<R, Period> *)
| is_optional (U : Type) (inner : traits U) (get : T -> option U)
    (* std::optional<U> *)
| is_other
with iteration (T : Type) : Type :=
| not_iterable
| iterable (U : Type) (inner : traits U) (elems : T -> list U).
    (* the elements in iteration order *)

Arguments Traits {T}.
Arguments is_string {T}.
Arguments is_c_str {T}.
Arguments is_wstring {T}.
Arguments is_wc_str {T}.
Arguments is_duration {T R}.
Arguments is_optional {T U}.
Arguments is_other {T}.
Arguments not_iterable {T}.
Arguments iterable {T U}.

Scheme traits_mut := Induction for traits Sort Prop
  with base_type_mut := Induction for base_type Sort Prop
  with iteration_mut := Induction for iteration Sort Prop.

(** Whether the instantiation [as_string<T>] returns a string rather
    than [void]. *)
Fixpoint returns_string {T : Type} (tr : traits T) : bool :=
  match tr with
  | Traits (Some _) _ _ _ => true
  | Traits None (Some _) _ _ => true
  | Traits None None b r =>
      match b with
      | is_optional inner _ => returns_string inner
      | is_other =>
          match r with
          | iterable inner _ => returns_string inner
          | not_iterable => false
          end
      | _ => true
      end
  end.

(** [items.resize( items.size() - 2 )]. *)
Definition drop_last_two (items : std_string) : std_string :=
  take (length items - 2) items.

(** [for ( auto& entry : x ) items += as_string( entry ) + ", "], with
    [stringify] the instantiation of [as_string] for the elements. *)
Fixpoint items_loop {U : Type} (stringify : U -> option std_string)
         (entries : list U) (items : std_string) : option std_string :=
  match entries with
  | [] => Some items
  | entry :: entries' =>
      match stringify entry with
      | Some s => items_loop stringify entries' (items ++ (s ++ lit ", "))
      | None => None
      end
  end.

(** [as_string( x )]; [None] where the instantiation yields no string.
    The branches for optionals and ranges are guarded by
    [StringConvertible] of the inner type; where [as_string] of that type
    returns [void], what they guard is [void] or ill-formed, and there is
    no string either way. *)
Fixpoint as_string {T : Type} (tr : traits T) (x : T) {struct tr}
  : option std_string :=
  match tr with
  | Traits (Some std_to_string) _ _ _ => Some (std_to_string x)
  | Traits None (Some to_string) _ _ => Some (to_string x)
  | Traits None None b r =>
      match b with
      | is_string chars => Some (chars x)
      | is_c_str mem => Some (take (c_strlen (mem x)) (mem x))
      | is_wstring units => Some (narrow <$> units x)
      | is_wc_str mem => Some (narrow <$> take (wcslen (mem x)) (mem x))
      | is_duration rep count => as_string_duration rep (count x)
      | is_optional inner get =>
          if returns_string inner then
            match get x with
            | Some value => as_string inner value
            | None => Some (lit "nullopt")
            end
          else None
      | is_other =>
          match r with
          | iterable inner elems =>
              if returns_string inner then
                match items_loop (as_string inner) (elems x) [] with
                | Some items =>
                    let items' :=
                      if negb (empty items) then drop_last_two items
                      else items in
                    Some (lit "{" ++ items' ++ lit "}")
                | None => None
                end
              else None
          | not_iterable => None
          end
      end
  end.

(** *** [str], [hex], [offset] *)

(** [str( fmt, ps... )] for integer parameters, which [fix_parameter]
    hands on as they are: a first [snprintf] for the size, a second one
    into the resized buffer. *)
Definition str (fmt : std_string) (ps : list Z) : std_string :=
  let size := (snprintf 0 fmt ps).2 in
  (snprintf (size + 1) fmt ps).1.

(** [hex( value )] for [T] a 64-bit integer type, signed or not, the
    types [%llx] is meant for.  [-value] is taken in [T], where the least
    value wraps around to itself. *)
Definition hex (is_signed : bool) (value : Z) : std_string :=
  if negb is_signed then str (lit "0x%llx") [value]
  else if 0 <=? value then str (lit "0x%llx") [value]
       else str (lit "-0x%llx") [wrap_int64 (- value)].

Definition offset (value : Z) : std_string :=
  if 0 <=? value then str (lit "+ 0x%llx") [value]
  else str (lit "- 0x%llx") [wrap_int64 (- value)].

(** Some types of the caller's side. *)
Definition int_traits : traits Z :=
  Traits (Some to_string) None is_other not_iterable.

(** [char]: [std::to_string] takes it as an [int].  [char] is signed on
    the build, so the characters above 127 are negative numbers. *)
Definition char_traits : traits ascii :=
  Traits (Some (fun c =>
                  let n := Z.of_N (N_of_ascii c) in
                  to_string (if n <? 128 then n else n - 256)))
         None is_other not_iterable.

(** [std::string] is a string and a range of [char]. *)
Definition string_traits : traits std_string :=
  Traits None None (is_string id) (iterable char_traits id).

Definition vector_traits {U} (inner : traits U) : traits (list U) :=
  Traits None None is_other (iterable inner id).

(** A class derived from [std::vector<int>] with a member
    [std::string to_string() const { return "list"; }]. *)
Definition named_vector_traits : traits (list Z) :=
  Traits None (Some (fun _ => lit "list")) is_other (iterable int_traits id).

Definition optional_traits {U} (inner : traits U) : traits (option U) :=
  Traits None None (is_optional inner id) not_iterable.

Definition duration_traits (base : period) : traits Z :=
  Traits None None (is_duration (integer_ticks base) id) not_iterable.

(** ** Vocabulary of the properties *)

(** [join sep ss]: the strings of [ss] with [sep] between neighbours. *)
Fixpoint join (sep : std_string) (ss : list std_string) : std_string :=
  match ss with
  | [] => []
  | s :: rest =>
      match rest with
      | [] => s
      | _ :: _ => s ++ sep ++ join sep rest
      end
  end.

(** Reading a number back: the value of one digit, of a digit string,
    and of a signed hexadecimal literal [-0x...] or [0x...]. *)
Definition digit_value (c : ascii) : option Z :=
  let n := Z.of_N (N_of_ascii c) in
  if (48 <=? n) && (n <=? 57) then Some (n - 48)
  else if (97 <=? n) && (n <=? 102) then Some (n - 87)
  else None.

Definition parse_step (base : Z) (acc : option Z) (c : ascii) : option Z :=
  match acc, digit_value c with
  | Some a, Some d => if d <? base then Some (a * base + d) else None
  | _, _ => None
  end.

Definition parse_digits (base : Z) (ds : std_string) : option Z :=
  match ds with
  | [] => None
  | _ :: _ => foldl (parse_step base) (Some 0) ds
  end.

Definition parse_signed_hex (s : std_string) : option Z :=
  match s with
  | "-"%char :: "0"%char :: "x"%char :: ds => Z.opp <$> parse_digits 16 ds
  | "0"%char :: "x"%char :: ds => parse_digits 16 ds
  | _ => None
  end.

(** A text without its leading sign, if it has one. *)
Definition strip_sign (s : std_string) : std_string :=
  match s with
  | "-"%char :: rest => rest
  | _ => s
  end.

(** No entry of [remove_list] stands right after a ['<'] of [s]. *)
Definition entry_at (s : std_string) (pos : nat) : bool :=
  existsb (starts_with (substr s pos)) impl.remove_list.

Definition leading_clean (s : std_string) : bool := negb (entry_at s 0).

Definition inner_clean (s : std_string) : bool :=
  forallb (fun i => negb (char_at_is s i "<" && entry_at s (i + 1)))
          (seq 0 (length s)).

(** The unit the specification names for [x]: the coarsest of hours,
    minutes, seconds, milliseconds of which [x] is more than one, in
    the ticks of [x]; nanoseconds when there is none. *)
Definition more_than_one {R : Type} (rep : duration_rep R) (x : R)
           (unit : period) : bool :=
  greater rep x (one rep unit).

Definition chosen_unit {R : Type} (rep : duration_rep R) (x : R)
  : period * std_string :=
  if more_than_one rep x hours then (hours, lit "hrs")
  else if more_than_one rep x minutes then (minutes, lit "min")
  else if more_than_one rep x seconds then (seconds, lit "sec")
  else if more_than_one rep x milliseconds then (milliseconds, lit "ms")
  else (nanoseconds, lit "ns").

(** One round of the inner loop of [fix_type_name]: the string after the
    body. *)
Definition strip_at (str : std_string) (i : nat) (in_ : std_string)
  : std_string :=
  if char_at_is in_ i "<" && starts_with (substr in_ (i + 1)) str
  then substr_n in_ 0 (i + 1) ++ substr in_ (i + 1 + strlen str)
  else in_.

(** What holds of the variables of every thread at all times. *)
Definition ring_ok {T : Type} (st : ring_state T) : Prop :=
  length (ring_buffer st) = 16%nat /\ 0 <= index st < 16.

Definition store_ok {T : Type} (store : gmap nat (ring_state T)) : Prop :=
  forall t, ring_ok (thread_state t store).

(** ** The rest of the header *)

(** [sprintf_s( buf, fmt, args... )] into a buffer of [cap] characters:
    the text, or [None] where it does not fit with its terminator. *)
Definition sprintf_s (cap : nat) (fmt : std_string) (args : list Z)
  : option std_string :=
  let out := format fmt args in
  if decide (length out < cap)%nat then Some out else None.

(** [static_type_name<T>()] and [dynamic_type_name( o )].  [has_rtti] is
    the macro [HAS_RTTI], [typeid_name] what [typeid( T ).name()] or
    [typeid( o ).name()] gives, [lt_typeid] the value of
    [lt_typeid<T>::value]. *)
Definition static_type_name (has_rtti : bool) (typeid_name : std_string)
           (lt_typeid : Z) : option std_string :=
  if has_rtti then Some (fix_type_name typeid_name)
  else sprintf_s 32 (lit "Type%llx") [lt_typeid].

Definition dynamic_type_name (has_rtti : bool)
           (dynamic_typeid_name static_typeid_name : std_string)
           (lt_typeid : Z) : option std_string :=
  if has_rtti then Some (fix_type_name dynamic_typeid_name)
  else static_type_name has_rtti static_typeid_name lt_typeid.

(** *** [fix_parameter] and [str] on parameters of every kind *)

(** A ring together with, for each slot, the number of times the string
    in it has been assigned.  The pointer [ref.data()] is good for the
    string as it is when the call returns: the next assignment to the
    same string invalidates it.  The counts are not in the source; they
    tell a pointer that may still be read from one that may not. *)
Record slots (T : Type) : Type :=
  { ring : ring_state T; assigned : list nat }.

Arguments ring {T}.
Arguments assigned {T}.

(** A pointer into a ring: the slot, and the assignment it stems from. *)
Definition pointer : Type := (nat * nat)%type.

(** [buffer_string] with the pointer it returns. *)
Definition buffer_string_ptr {T : Type} (value : list T) (s : slots T)
  : pointer * slots T :=
  let slot := (buffer_string value (ring s)).1 in
  let count := S (default 0%nat (assigned s !! slot)) in
  ((slot, count),
   {| ring := (buffer_string value (ring s)).2;
      assigned := <[ slot := count ]> (assigned s) |}).

(** The characters behind a pointer; [None] once the string has been
    assigned again. *)
Definition read {T : Type} (s : slots T) (ptr : pointer)
  : option (list T) :=
  if decide (assigned s !! ptr.1 = Some ptr.2)
  then ring_buffer (ring s) !! ptr.1
  else None.

(** The two rings of a thread: those of [buffer_string<char>] and of
    [buffer_string<wchar_t>]. *)
Record rings : Type :=
  { narrow_ring : slots ascii; wide_ring : slots Z }.

(** An argument of [fix_parameter<T>], by the branch [T] selects.
    [StringConvertible<T>] is a requires-expression with one simple
    requirement: it asks that [!std::is_void_v<decltype( as_string( v ) )>]
    is a well-formed expression, not that it is true, and [as_string] is
    declared for every type.  So the test holds for every [T]: a type
    that is neither fundamental, enum, pointer, array nor
    [std::(w)string] always takes the branch
    [buffer_string( as_string( x ) )], and the last branch,
    [[type@pointer]], is never reached. *)
Inductive parameter : Type :=
| scalar (v : Z)
    (* fundamental or enum, here of an integer type *)
| c_pointer (target : std_string)
    (* pointer or array of char: the bytes it points to *)
| wc_pointer (target : std_wstring)
    (* pointer or array of wchar_t *)
| string_ref (s : std_string)
    (* std::string, T a reference *)
| string_val (s : std_string)
    (* std::string, T no reference *)
| wstring_ref (w : std_wstring)
| wstring_val (w : std_wstring)
| object (T : Type) (tr : traits T) (x : T).
    (* any other type *)

Arguments object {T}.

(** What [fix_parameter] returns: the value itself, a pointer to
    characters of the caller, or a pointer into a slot of a ring. *)
Inductive fixed : Type :=
| fixed_scalar (v : Z)
| fixed_chars (target : std_string)
| fixed_wchars (target : std_wstring)
| fixed_slot (ptr : pointer)
| fixed_wslot (ptr : pointer).

Definition into_ring (value : std_string) (st : rings) : fixed * rings :=
  let '(ptr, narrow) := buffer_string_ptr value (narrow_ring st) in
  (fixed_slot ptr, {| narrow_ring := narrow; wide_ring := wide_ring st |}).

Definition into_wide_ring (value : std_wstring) (st : rings)
  : fixed * rings :=
  let '(ptr, wide) := buffer_string_ptr value (wide_ring st) in
  (fixed_wslot ptr, {| narrow_ring := narrow_ring st; wide_ring := wide |}).

(** [fix_parameter<T>( x )].  [None] stands for a call the compiler
    refuses: [buffer_string( as_string( x ) )] where [as_string] returns
    nothing. *)
Definition fix_parameter (p : parameter) (st : rings)
  : option (fixed * rings) :=
  match p with
  | scalar v => Some (fixed_scalar v, st)
  | c_pointer target => Some (fixed_chars target, st)
  | wc_pointer target => Some (fixed_wchars target, st)
  | string_ref s => Some (fixed_chars s, st)
  | string_val s => Some (into_ring s st)
  | wstring_ref w => Some (fixed_wchars w, st)
  | wstring_val w => Some (into_wide_ring w st)
  | object tr x => value ← as_string tr x; Some (into_ring value st)
  end.

(** [fix_parameter( ps )] in the first call of [snprintf]: [ps] names an
    lvalue, so [T] is a reference. *)
Definition as_lvalue (p : parameter) : parameter :=
  match p with
  | string_val s => string_ref s
  | wstring_val w => wstring_ref w
  | _ => p
  end.

(** The arguments of one call fixed one after the other.  The compiler
    chooses the order; [order] lists the positions as they come. *)
Fixpoint fix_parameters (order : list nat) (ps : list parameter)
         (st : rings) : option (gmap nat fixed * rings) :=
  match order with
  | [] => Some (∅, st)
  | i :: order' =>
      match ps !! i with
      | Some p =>
          '(f, st') ← fix_parameter p st;
          '(fs, st'') ← fix_parameters order' ps st';
          Some (<[ i := f ]> fs, st'')
      | None => fix_parameters order' ps st
      end
  end.

(** What the formatter finds behind an argument when it runs: an
    integer, characters, or a pointer that is no longer valid, which it
    must not read. *)
Inductive vararg : Type :=
| va_int (v : Z)
| va_chars (target : std_string)
| va_wchars (target : std_wstring)
| va_invalid.

Definition pass (st : rings) (f : fixed) : vararg :=
  match f with
  | fixed_scalar v => va_int v
  | fixed_chars target => va_chars target
  | fixed_wchars target => va_wchars target
  | fixed_slot ptr =>
      match read (narrow_ring st) ptr with
      | Some target => va_chars target
      | None => va_invalid
      end
  | fixed_wslot ptr =>
      match read (wide_ring st) ptr with
      | Some target => va_wchars target
      | None => va_invalid
      end
  end.

Definition arguments (n : nat) (fs : gmap nat fixed) (st : rings)
  : list vararg :=
  omap (fun i => pass st <$> fs !! i) (seq 0 n).

(** A formatter of the printf family on such arguments, as the host
    provides it: the whole text it produces for a format. *)
Definition formatter : Type := std_string -> list vararg -> std_string.

(** One such formatter: [%llx] as in [format], and [%s], which copies
    the characters up to the terminator. *)
Fixpoint vformat (fmt : std_string) (args : list vararg) : std_string :=
  match fmt with
  | [] => []
  | c :: rest =>
      match c, rest, args with
      | "%"%char, "l"%char :: "l"%char :: "x"%char :: rest',
        va_int a :: args' =>
          lower_hex (wrap_uint64 a) ++ vformat rest' args'
      | "%"%char, "s"%char :: rest', va_chars target :: args' =>
          take (c_strlen target) target ++ vformat rest' args'
      | _, _, _ => c :: vformat rest args
      end
  end.

(** [format], the formatter of [hex] and [offset], on the integers
    among the arguments. *)
Definition format_integers : formatter :=
  fun fmt args =>
    format fmt (omap (fun a => match a with
                               | va_int v => Some v
                               | _ => None
                               end) args).

Definition vsnprintf (host : formatter) (cap : nat) (fmt : std_string)
           (args : list vararg) : std_string * nat :=
  let out := host fmt args in (take (cap - 1) out, length out).

(** [str( fmt, ps... )]: the parameters are fixed for the first
    [snprintf], which gives the size, and fixed again for the second,
    which writes into the buffer resized to that size.  [None] where a
    call of [fix_parameter] is refused. *)
Definition str_params (host : formatter) (order1 order2 : list nat)
           (fmt : std_string) (ps : list parameter) (st : rings)
  : option (std_string * rings) :=
  let n := length ps in
  '(fs1, st1) ← fix_parameters order1 (as_lvalue <$> ps) st;
  let size := (vsnprintf host 0 fmt (arguments n fs1 st1)).2 in
  '(fs2, st2) ← fix_parameters order2 ps st1;
  let written := (vsnprintf host (size + 1) fmt (arguments n fs2 st2)).1 in
  Some (written ++ replicate (size - length written) zero, st2).

(** *** Vocabulary for these *)

(** The string [as_string] returns, for a type where it returns one. *)
Definition string_of {T : Type} (tr : traits T) (x : T) : std_string :=
  default [] (as_string tr x).

(** The parameters [fix_parameter] accepts: all but the objects of a
    type for which [as_string] returns nothing. *)
Definition convertible (p : parameter) : bool :=
  match p with
  | object tr _ => returns_string tr
  | _ => true
  end.

(** What a parameter is meant to print as. *)
Definition value_of (p : parameter) : vararg :=
  match p with
  | scalar v => va_int v
  | c_pointer target => va_chars target
  | wc_pointer target => va_wchars target
  | string_ref s | string_val s => va_chars s
  | wstring_ref w | wstring_val w => va_wchars w
  | object tr x => va_chars (string_of tr x)
  end.

(** The text a parameter puts into the narrow ring, into the wide one. *)
Definition narrow_text (p : parameter) : option std_string :=
  match p with
  | string_val s => Some s
  | object tr x => Some (string_of tr x)
  | _ => None
  end.

Definition wide_text (p : parameter) : option std_wstring :=
  match p with
  | wstring_val w => Some w
  | _ => None
  end.

(** The texts the parameters put into the rings, in the order in which
    they are fixed. *)
Definition narrow_texts (order : list nat) (ps : list parameter)
  : list std_string :=
  omap (fun i => ps !! i ≫= narrow_text) order.

Definition wide_texts (order : list nat) (ps : list parameter)
  : list std_wstring :=
  omap (fun i => ps !! i ≫= wide_text) order.

(** Values stored into one ring, one call of [buffer_string] each. *)
Definition ring_writes {T : Type} (values : list (list T))
           (st : ring_state T) : ring_state T :=
  foldl (fun st value => (buffer_string value st).2) st values.

(** Values stored into one ring with its counts. *)
Definition buffer_strings {T : Type} (values : list (list T))
           (s : slots T) : slots T :=
  foldl (fun s value => (buffer_string_ptr value s).2) s values.

Definition slots_ok {T : Type} (s : slots T) : Prop :=
  ring_ok (ring s) /\ length (assigned s) = 16%nat.

Definition rings_ok (st : rings) : Prop :=
  slots_ok (narrow_ring st) /\ slots_ok (wide_ring st).

Definition slots_init {T : Type} : slots T :=
  {| ring := ring_init; assigned := replicate 16 0%nat |}.

Definition rings_init : rings :=
  {| narrow_ring := slots_init; wide_ring := slots_init |}.

(** The values of the calls of thread [t], in order. *)
Definition values_on {T : Type} (t : nat) (calls : list (nat * list T))
  : list (list T) :=
  snd <$> filter (fun c => c.1 = t) calls.

(** A code unit seen as a character, and back. *)
Definition widen (c : ascii) : Z := Z.of_N (N_of_ascii c).

(** The characters [hex] and [offset] are made of. *)
Definition is_lower_hex_digit (c : ascii) : bool :=
  let n := Z.of_N (N_of_ascii c) in
  ((48 <=? n) && (n <=? 57)) || ((97 <=? n) && (n <=? 102)).

(** The parameters of [str( fmt, v, std::string{ "x" }, 255 )] for a
    vector [v] of 1, 2, 3. *)
Definition sample_parameters : list parameter :=
  [ object (vector_traits int_traits) [1; 2; 3];
    string_val (lit "x");
    scalar 255 ].

(** ** Properties of [as_string] *)

Section Durations.

Context {R : Type} (rep : duration_rep R).

Lemma duration_loop_flagged (x : R) table :
  Exists (fun e => e.2 = true) table -> is_Some (duration_loop rep x table).
Proof.
  induction table as [|[[dur name] last] rest IH]; intros Hex.
  - inversion Hex.
  - simpl. destruct (last || greater rep x dur) eqn:Hsel; [eauto|].
    apply IH. inversion Hex as [? ? Hl|]; subst; [|assumption].
    simpl in Hl. subst last. discriminate.
Qed.

Lemma durations_flagged : Exists (fun e => e.2 = true) (durations rep).
Proof.
  unfold durations. do 4 (apply Exists_cons; right).
  apply Exists_cons; left. reflexivity.
Qed.

(** The loop agrees with the unit named in words. *)
Lemma as_string_duration_chosen (x : R) :
  as_string_duration rep x =
    Some (flt2str (quotient rep x (one rep (chosen_unit rep x).1))
          ++ (chosen_unit rep x).2).
Proof.
  unfold as_string_duration, durations, chosen_unit, more_than_one.
  cbn [duration_loop orb].
  repeat (destruct (greater rep x _); [reflexivity|]).
  reflexivity.
Qed.

End Durations.

Example duration_1500ms :
  as_string (duration_traits milliseconds) 1500 = Some (lit "1.50sec").
Proof. vm_compute. reflexivity. Qed.

Example duration_500ns :
  as_string (duration_traits nanoseconds) 500 = Some (lit "500.00ns").
Proof. vm_compute. reflexivity. Qed.

(** C10: whatever the representation, the tick period and the value,
    the loop over [durations] returns from inside: the table ends with
    the entry for nanoseconds, that entry carries the flag [last], a
    flagged entry is taken whatever the comparison says, and so
    [unreachable()] (the result [None] of the loop) is never met. *)
Theorem duration_loop_never_unreachable :
  forall (R : Type) (rep : duration_rep R) (x : R),
    last (durations rep) = Some (one rep nanoseconds, lit "ns", true) /\
    (forall dur name rest,
        duration_loop rep x ((dur, name, true) :: rest)
        = Some (flt2str (quotient rep x dur) ++ name)) /\
    as_string_duration rep x <> None /\
    (forall T (count : T -> R) (r : iteration T) (v : T),
        is_Some (as_string (Traits None None (is_duration rep count) r) v)).
Proof.
  intros R rep x.
  split; [reflexivity|]. split; [reflexivity|].
  assert (Hs : forall y, is_Some (as_string_duration rep y)).
  { intros. apply duration_loop_flagged, durations_flagged. }
  split.
  - destruct (Hs x) as [s ->]. discriminate.
  - intros. apply Hs.
Qed.

(** C2, at [std::chrono::milliseconds{ 1 }]: no unit is exceeded, the
    entry for nanoseconds is taken, and one nanosecond converted to
    milliseconds is zero ticks; the quotient by it is infinite and the
    text is no number with two decimals. *)
Theorem as_string_one_millisecond :
  chosen_unit (integer_ticks milliseconds) 1 = (nanoseconds, lit "ns") /\
  one (integer_ticks milliseconds) nanoseconds = 0 /\
  as_string (duration_traits milliseconds) 1 = Some (lit "infns").
Proof. repeat split. Qed.

(** ** The dispatcher *)

Section Dispatcher.

Lemma items_loop_all {U} (stringify : U -> option std_string) entries :
  (forall e, is_Some (stringify e)) ->
  forall items, exists ss,
    Forall2 (fun e s => stringify e = Some s) entries ss /\
    items_loop stringify entries items
    = Some (items ++ concat ((fun s => s ++ lit ", ") <$> ss)).
Proof.
  intros Hall. induction entries as [|e entries IH]; intros items.
  - exists []. split; [constructor|]. simpl. by rewrite app_nil_r.
  - destruct (Hall e) as [s Hs].
    destruct (IH (items ++ (s ++ lit ", "))) as (ss & HF & Hloop).
    exists (s :: ss). split; [by constructor|].
    simpl. rewrite Hs, Hloop. by rewrite <- app_assoc.
Qed.

(** A type whose instantiation returns a string yields one on every
    value. *)
Lemma returns_string_sound :
  forall T (tr : traits T), returns_string tr = true ->
    forall x, is_Some (as_string tr x).
Proof.
  pose (P := fun T (tr : traits T) =>
               returns_string tr = true -> forall x, is_Some (as_string tr x)).
  apply (traits_mut P
           (fun T b => match b with
                       | is_optional inner _ => P _ inner
                       | _ => True
                       end)
           (fun T r => match r with
                       | iterable inner _ => P _ inner
                       | not_iterable => True
                       end)); try done.
  intros T [f|] [g|] b Hb r Hr Hret x; [cbn; eauto..|].
  destruct b; cbn [returns_string] in Hret; cbn [as_string]; eauto.
  - apply duration_loop_flagged, durations_flagged.
  - rewrite Hret. destruct (get x); eauto.
  - destruct r; [done|]. rewrite Hret.
    destruct (items_loop_all (as_string inner) (elems x) (Hr Hret) [])
      as (ss & _ & Hl).
    rewrite Hl. eauto.
Qed.

Lemma concat_sep_join (sep : std_string) ss :
  ss <> [] -> concat ((fun s => s ++ sep) <$> ss) = join sep ss ++ sep.
Proof.
  induction ss as [|s [|s' rest] IH]; intros Hne; [done| |].
  - simpl. by rewrite app_nil_r.
  - specialize (IH ltac:(done)).
    change (concat ((fun s => s ++ sep) <$> s :: s' :: rest))
      with ((s ++ sep) ++ concat ((fun s => s ++ sep) <$> s' :: rest)).
    rewrite IH. change (join sep (s :: s' :: rest))
      with (s ++ sep ++ join sep (s' :: rest)).
    by rewrite <- !app_assoc.
Qed.

Lemma drop_last_two_app (s sep : std_string) :
  length sep = 2%nat -> drop_last_two (s ++ sep) = s.
Proof.
  intros Hsep. unfold drop_last_two. rewrite length_app, Hsep.
  replace (length s + 2 - 2)%nat with (length s) by lia.
  by rewrite take_app_length.
Qed.

(** C8: the tests are tried in the order of the source, and the first
    that holds decides.  A type that [std::to_string] accepts gets its
    result, whether or not it also has a member [to_string] and
    whatever else it is; without it, a member [to_string] decides; with
    neither, a [std::string] and a [const char*] are copied (the latter
    up to its terminator), also when the type is a range. *)
Theorem as_string_priority :
  forall T (x : T) (std_to_string to_string chars mem : T -> std_string)
         (member : option (T -> std_string)) (b : base_type T)
         (r : iteration T),
    as_string (Traits (Some std_to_string) member b r) x
      = Some (std_to_string x) /\
    as_string (Traits (Some std_to_string) (Some to_string) b r) x
      = Some (std_to_string x) /\
    as_string (Traits None (Some to_string) b r) x = Some (to_string x) /\
    as_string (Traits None None (is_string chars) r) x = Some (chars x) /\
    as_string (Traits None None (is_c_str mem) r) x
      = Some (take (c_strlen (mem x)) (mem x)).
Proof. intros. repeat split. Qed.

(** C6: for an optional whose inner type stringifies, the result is
    the inner value's string when there is a value, and the text
    [nullopt] when there is none.  ([std::optional] has no member
    [to_string] and [std::to_string] does not accept it, hence the two
    [None].) *)
Theorem as_string_optional :
  forall T U (inner : traits U) (get : T -> option U) (r : iteration T)
         (x : T),
    returns_string inner = true ->
    match get x with
    | Some value =>
        exists s, as_string inner value = Some s /\
                  as_string (Traits None None (is_optional inner get) r) x
                  = Some s
    | None =>
        as_string (Traits None None (is_optional inner get) r) x
        = Some (lit "nullopt")
    end.
Proof.
  intros T U inner get r x Hr. cbn [as_string]. rewrite Hr.
  destruct (get x) as [value|]; [|reflexivity].
  destruct (returns_string_sound U inner Hr value) as [s Hs]. eauto.
Qed.

(** C3, as it holds: for a range that none of the earlier tests takes
    (no [std::to_string], no member [to_string], no string, duration or
    optional) and whose element type stringifies, the result is ["{"],
    the elements' strings in iteration order with [", "] between them,
    and ["}"]; for an empty one it is ["{}"]. *)
Theorem as_string_container :
  forall T U (inner : traits U) (elems : T -> list U) (x : T),
    returns_string inner = true ->
    exists ss,
      Forall2 (fun e s => as_string inner e = Some s) (elems x) ss /\
      as_string (Traits None None is_other (iterable inner elems)) x
      = Some (lit "{" ++ join (lit ", ") ss ++ lit "}") /\
      (elems x = [] ->
       as_string (Traits None None is_other (iterable inner elems)) x
       = Some (lit "{}")).
Proof.
  intros T U inner elems x Hr. cbn [as_string]. rewrite Hr.
  destruct (items_loop_all (as_string inner) (elems x)
              (returns_string_sound U inner Hr) []) as (ss & HF & Hl).
  exists ss. split; [exact HF|]. rewrite Hl. cbn [app].
  assert (Hbody :
    (if negb (empty (concat ((fun s => s ++ lit ", ") <$> ss)))
     then drop_last_two (concat ((fun s => s ++ lit ", ") <$> ss))
     else concat ((fun s => s ++ lit ", ") <$> ss))
    = join (lit ", ") ss).
  { destruct ss as [|s ss]; [reflexivity|].
    rewrite concat_sep_join by done.
    assert (Hne : empty (join (lit ", ") (s :: ss) ++ lit ", ") = false).
    { destruct (join (lit ", ") (s :: ss) ++ lit ", ") eqn:Heq; [|done].
      apply (f_equal length) in Heq.
      rewrite length_app in Heq. simpl in Heq. lia. }
    rewrite Hne. by apply drop_last_two_app. }
  rewrite Hbody. split; [reflexivity|].
  intros Hnil. rewrite Hnil in HF. inversion HF. reflexivity.
Qed.

(** C3, as stated, fails: a range that an earlier test takes never
    reaches the braces.  A vector of [int] with a member [to_string] gets
    that member's text; a [std::string], a range of [char], is copied,
    and the empty one gives the empty text. *)
Lemma as_string_range_not_braced :
  returns_string int_traits = true /\
  as_string named_vector_traits [1; 2; 3] = Some (lit "list") /\
  as_string named_vector_traits [1; 2; 3] <> Some (lit "{1, 2, 3}") /\
  as_string named_vector_traits [] <> Some (lit "{}") /\
  returns_string char_traits = true /\
  as_string string_traits (lit "ab") = Some (lit "ab") /\
  as_string string_traits [] <> Some (lit "{}").
Proof. repeat split; discriminate. Qed.

Lemma wcslen_terminated (w rest : std_wstring) :
  Forall (fun c => c <> 0) w -> wcslen (w ++ 0 :: rest) = length w.
Proof.
  induction 1 as [|c w Hc _ IH]; [reflexivity|].
  simpl. destruct (Z.eqb_spec c 0); [done|]. by rewrite IH.
Qed.

(** C7: a wide string becomes a narrow string of the same length whose
    characters are the code units cut down to their low eight bits, one
    for one; so does a wide C-string [w], stored with its terminator in
    front of whatever follows in memory.  (Neither type has a member
    [to_string] or is accepted by [std::to_string].) *)
Theorem as_string_wide :
  forall T (x : T) (units mem : T -> std_wstring) (r : iteration T)
         (w rest : std_wstring),
    Forall (fun c => c <> 0) w ->
    mem x = w ++ 0 :: rest ->
    (exists out,
        as_string (Traits None None (is_wstring units) r) x = Some out /\
        length out = length (units x) /\
        forall i c, units x !! i = Some c -> out !! i = Some (narrow c)) /\
    (exists out,
        as_string (Traits None None (is_wc_str mem) r) x = Some out /\
        length out = length w /\
        forall i c, w !! i = Some c -> out !! i = Some (narrow c)).
Proof.
  intros T x units mem r w rest Hw Hmem. split.
  - exists (narrow <$> units x). split; [reflexivity|].
    split; [apply length_fmap|].
    intros i c Hi. by rewrite list_lookup_fmap, Hi.
  - exists (narrow <$> w). split.
    + cbn [as_string]. rewrite Hmem, wcslen_terminated by done.
      by rewrite take_app_length.
    + split; [apply length_fmap|].
      intros i c Hi. by rewrite list_lookup_fmap, Hi.
Qed.

End Dispatcher.

(** ** [str], [hex] and [offset] *)

Section Hexadecimal.

Lemma str_format fmt ps : str fmt ps = format fmt ps.
Proof.
  unfold str, snprintf. cbn [fst snd].
  replace (length (format fmt ps) + 1 - 1)%nat
    with (length (format fmt ps)) by lia.
  apply firstn_all.
Qed.

Lemma digit_value_digit_char d :
  0 <= d < 16 -> digit_value (digit_char d) = Some d.
Proof.
  intros Hd.
  assert (Hcases : d = 0 \/ d = 1 \/ d = 2 \/ d = 3 \/ d = 4 \/ d = 5 \/
                   d = 6 \/ d = 7 \/ d = 8 \/ d = 9 \/ d = 10 \/ d = 11 \/
                   d = 12 \/ d = 13 \/ d = 14 \/ d = 15) by lia.
  repeat (destruct Hcases as [->|Hcases]; [reflexivity|]).
  subst d. reflexivity.
Qed.

Lemma digits_fuel_not_empty fuel base n acc :
  (0 < fuel)%nat -> digits_fuel fuel base n acc <> [].
Proof.
  revert n acc. induction fuel as [|fuel IH]; intros n acc Hf; [lia|].
  cbn [digits_fuel]. destruct (n / base =? 0); [discriminate|].
  destruct fuel as [|fuel']; [discriminate|]. apply IH. lia.
Qed.

(** Reading the digits back gives the number they were made from. *)
Lemma parse_digits_fuel fuel :
  forall n acc,
    (0 < fuel)%nat -> 0 <= n < 16 ^ Z.of_nat fuel ->
    foldl (parse_step 16) (Some 0) (digits_fuel fuel 16 n acc)
    = foldl (parse_step 16) (Some n) acc.
Proof.
  induction fuel as [|fuel IH]; intros n acc Hf Hn; [lia|].
  assert (Hd : 0 <= n mod 16 < 16) by (apply Z.mod_pos_bound; lia).
  assert (Hstep : forall a, parse_step 16 (Some a) (digit_char (n mod 16))
                            = Some (a * 16 + n mod 16)).
  { intros a. unfold parse_step. rewrite digit_value_digit_char by lia.
    destruct (Z.ltb_spec (n mod 16) 16); [reflexivity|lia]. }
  cbn [digits_fuel]. destruct (Z.eqb_spec (n / 16) 0) as [Hq|Hq].
  - cbn [foldl]. rewrite Hstep. f_equal. f_equal.
    pose proof (Z.div_mod n 16). lia.
  - assert (Hq' : 0 < n / 16).
    { assert (0 <= n / 16) by (apply Z.div_pos; lia). lia. }
    destruct fuel as [|fuel'].
    + change (16 ^ Z.of_nat 1) with 16 in Hn.
      rewrite Z.div_small in Hq by lia. lia.
    + rewrite IH; [| lia |].
      * cbn [foldl]. rewrite Hstep. f_equal. f_equal.
        pose proof (Z.div_mod n 16). lia.
      * split; [lia|]. apply Z.div_lt_upper_bound; [lia|].
        replace (Z.of_nat (S (S fuel'))) with (Z.succ (Z.of_nat (S fuel')))
          in Hn by lia.
        rewrite Z.pow_succ_r in Hn by lia. lia.
Qed.

Lemma parse_lower_hex n :
  in_uint64 n -> parse_digits 16 (lower_hex n) = Some n.
Proof.
  intros Hn. unfold parse_digits, lower_hex.
  pose proof (digits_fuel_not_empty 16 16 n []) as Hne.
  destruct (digits_fuel 16 16 n []) as [|c ds] eqn:Heq;
    [exfalso; apply Hne; [lia|done]|].
  rewrite <- Heq. rewrite parse_digits_fuel; [reflexivity | lia |].
  exact Hn.
Qed.

(** Negating in [long long] and reading the result as
    [unsigned long long] gives the magnitude, also for the least value. *)
Lemma magnitude_of_negative n :
  in_int64 n -> n < 0 -> wrap_uint64 (wrap_int64 (- n)) = Z.abs n.
Proof.
  unfold in_int64, wrap_uint64, wrap_int64. intros Hn Hneg.
  rewrite Z.abs_neq by lia.
  destruct (Z.eq_dec n (- 2 ^ 63)) as [->|Hmin]; [reflexivity|].
  rewrite (Z.mod_small (- n + 2 ^ 63)) by lia.
  rewrite Z.mod_small; lia.
Qed.

Lemma magnitude_of_positive n :
  0 <= n < 2 ^ 64 -> wrap_uint64 n = Z.abs n.
Proof.
  intros Hn. unfold wrap_uint64. rewrite Z.mod_small by lia.
  rewrite Z.abs_eq; lia.
Qed.

(** A text without [%], followed by the directive. *)
Lemma format_llx (pre : std_string) v :
  Forall (fun c => c <> "%"%char) pre ->
  format (pre ++ lit "%llx") [v] = pre ++ lower_hex (wrap_uint64 v).
Proof.
  induction 1 as [|c pre Hc _ IH].
  - change (format ([] ++ lit "%llx") [v])
      with (lower_hex (wrap_uint64 v) ++ []).
    by rewrite app_nil_r.
  - cbn [app format]. rewrite IH.
    destruct (Ascii.eqb_spec c "%"%char) as [->|_]; [done|].
    destruct c as [[] [] [] [] [] [] [] []]; try reflexivity; done.
Qed.

Lemma str_llx (pre : std_string) v :
  forallb (fun c => negb (Ascii.eqb c "%"%char)) pre = true ->
  str (pre ++ lit "%llx") [v] = pre ++ lower_hex (wrap_uint64 v).
Proof.
  intros Hpre. rewrite str_format. apply format_llx.
  apply Forall_forall. intros c Hc.
  rewrite forallb_forall in Hpre. apply list_elem_of_In, Hpre in Hc.
  destruct (Ascii.eqb_spec c "%"%char); [discriminate|done].
Qed.

Lemma hex_text (is_signed : bool) n :
  (if is_signed then in_int64 n else in_uint64 n) ->
  hex is_signed n
  = (if n <? 0 then lit "-0x" else lit "0x") ++ lower_hex (Z.abs n).
Proof.
  intros Hn. unfold hex.
  change (lit "0x%llx") with (lit "0x" ++ lit "%llx").
  change (lit "-0x%llx") with (lit "-0x" ++ lit "%llx").
  rewrite !str_llx by reflexivity.
  destruct is_signed; cbn [negb].
  - destruct (Z.leb_spec 0 n) as [Hpos|Hneg].
    + destruct (Z.ltb_spec n 0); [lia|].
      rewrite magnitude_of_positive; [done|]. unfold in_int64 in Hn. lia.
    + destruct (Z.ltb_spec n 0); [|lia].
      by rewrite magnitude_of_negative.
  - unfold in_uint64 in Hn. destruct (Z.ltb_spec n 0); [lia|].
    by rewrite magnitude_of_positive.
Qed.

Lemma offset_text n :
  in_int64 n ->
  offset n
  = (if 0 <=? n then lit "+ " else lit "- ") ++ lit "0x"
    ++ lower_hex (Z.abs n).
Proof.
  intros Hn. unfold offset.
  change (lit "+ 0x%llx") with (lit "+ 0x" ++ lit "%llx").
  change (lit "- 0x%llx") with (lit "- 0x" ++ lit "%llx").
  rewrite !str_llx by reflexivity.
  destruct (Z.leb_spec 0 n) as [Hpos|Hneg].
  - rewrite magnitude_of_positive; [done|]. unfold in_int64 in Hn. lia.
  - by rewrite magnitude_of_negative.
Qed.

Lemma digit_char_not_zero d : 0 < d < 16 -> digit_char d <> "0"%char.
Proof.
  intros Hd.
  assert (Hcases : d = 1 \/ d = 2 \/ d = 3 \/ d = 4 \/ d = 5 \/
                   d = 6 \/ d = 7 \/ d = 8 \/ d = 9 \/ d = 10 \/ d = 11 \/
                   d = 12 \/ d = 13 \/ d = 14 \/ d = 15) by lia.
  repeat (destruct Hcases as [->|Hcases]; [discriminate|]).
  subst d. discriminate.
Qed.

(** Natural width: the first digit of a positive number is not [0]. *)
Lemma digits_fuel_no_padding fuel :
  forall n acc,
    0 < n < 16 ^ Z.of_nat fuel ->
    exists c rest, digits_fuel fuel 16 n acc = c :: rest /\ c <> "0"%char.
Proof.
  induction fuel as [|fuel IH]; intros n acc Hn.
  - change (16 ^ Z.of_nat 0) with 1 in Hn. lia.
  - cbn [digits_fuel]. destruct (Z.eqb_spec (n / 16) 0) as [Hq|Hq].
    + eexists _, _. split; [reflexivity|]. apply digit_char_not_zero.
      pose proof (Z.div_mod n 16). pose proof (Z.mod_pos_bound n 16). lia.
    + apply IH.
      assert (0 <= n / 16) by (apply Z.div_pos; lia).
      split; [lia|]. apply Z.div_lt_upper_bound; [lia|].
      replace (Z.of_nat (S fuel)) with (Z.succ (Z.of_nat fuel)) in Hn by lia.
      rewrite Z.pow_succ_r in Hn by lia. lia.
Qed.

Lemma lower_hex_no_padding n :
  in_uint64 n -> n <> 0 -> starts_with (lower_hex n) (lit "0") = false.
Proof.
  intros Hn Hnz. unfold in_uint64 in Hn.
  destruct (digits_fuel_no_padding 16 n []) as (c & rest & Heq & Hc);
    [change (16 ^ Z.of_nat 16) with (2 ^ 64); lia|].
  unfold lower_hex. rewrite Heq. change (lit "0") with ["0"%char].
  cbn [starts_with]. destruct (Ascii.eqb_spec "0"%char c); [congruence|done].
Qed.

(** C5: on a 64-bit integer, signed or unsigned, [hex] gives ["0x"]
    and the lowercase digits of the value when it is not negative, and
    ["-0x"] and the digits of the magnitude when it is; read back as a
    signed hexadecimal literal, the text gives the value again.  The
    digits have their natural width: no zero in front. *)
Theorem hex_round_trip :
  forall (is_signed : bool) n,
    (if is_signed then in_int64 n else in_uint64 n) ->
    hex is_signed n
    = (if n <? 0 then lit "-0x" else lit "0x") ++ lower_hex (Z.abs n) /\
    (n <> 0 -> starts_with (lower_hex (Z.abs n)) (lit "0") = false) /\
    parse_signed_hex (hex is_signed n) = Some n.
Proof.
  intros is_signed n Hn.
  assert (Habs : in_uint64 (Z.abs n)).
  { unfold in_uint64.
    destruct is_signed; unfold in_int64, in_uint64 in Hn; lia. }
  split; [by apply hex_text|].
  split; [intros Hnz; apply lower_hex_no_padding; [done|lia]|].
  rewrite hex_text by done.
  destruct (Z.ltb_spec n 0) as [Hneg|Hpos].
  - change (parse_signed_hex (lit "-0x" ++ lower_hex (Z.abs n)))
      with (Z.opp <$> parse_digits 16 (lower_hex (Z.abs n))).
    rewrite parse_lower_hex by done. cbn. f_equal. lia.
  - change (parse_signed_hex (lit "0x" ++ lower_hex (Z.abs n)))
      with (parse_digits 16 (lower_hex (Z.abs n))).
    rewrite parse_lower_hex by done. f_equal. lia.
Qed.

(** C4: [offset] of a 64-bit signed [n] starts with ["+ "] exactly
    when [n >= 0] and with ["- "] exactly when [n < 0]; what follows
    these two characters is ["0x"] and the lowercase digits of [|n|]
    without padding, the same text as [hex] of [|n|] without its sign. *)
Theorem offset_sign_and_magnitude :
  forall n,
    in_int64 n ->
    (starts_with (offset n) (lit "+ ") = true <-> 0 <= n) /\
    (starts_with (offset n) (lit "- ") = true <-> n < 0) /\
    drop 2 (offset n) = lit "0x" ++ lower_hex (Z.abs n) /\
    drop 2 (offset n) = strip_sign (hex true (wrap_int64 (Z.abs n))) /\
    drop 2 (offset n) = hex false (Z.abs n).
Proof.
  intros n Hn. rewrite offset_text by done.
  assert (Hu : hex false (Z.abs n) = lit "0x" ++ lower_hex (Z.abs n)).
  { rewrite hex_text.
    - rewrite Z.abs_idemp.
      destruct (Z.ltb_spec (Z.abs n) 0); [lia|done].
    - unfold in_uint64. unfold in_int64 in Hn. lia. }
  assert (Hs : strip_sign (hex true (wrap_int64 (Z.abs n)))
               = lit "0x" ++ lower_hex (Z.abs n)).
  { unfold in_int64 in Hn.
    destruct (Z.eq_dec n (- 2 ^ 63)) as [->|Hmin]; [by vm_compute|].
    assert (Hw : wrap_int64 (Z.abs n) = Z.abs n).
    { unfold wrap_int64. rewrite Z.mod_small; lia. }
    rewrite Hw, hex_text by (unfold in_int64; lia).
    rewrite Z.abs_idemp.
    destruct (Z.ltb_spec (Z.abs n) 0); [lia|done]. }
  rewrite Hu, Hs.
  destruct (Z.leb_spec 0 n) as [Hpos|Hneg].
  - repeat split; try done; try lia.
  - repeat split; try done; try lia.
Qed.

End Hexadecimal.

(** ** The ring of temporaries *)

Section Ring.

Context {T : Type}.
Implicit Types (st : ring_state T) (store : gmap nat (ring_state T)).
Implicit Types (value : list T) (calls : list (nat * list T)).

Lemma ring_init_ok : ring_ok (@ring_init T).
Proof. split; [reflexivity|]. simpl. lia. Qed.

Lemma next_index i :
  0 <= i < 16 -> wrap_uint64 (i + 1) mod ring_size = (i + 1) mod 16.
Proof.
  intros Hi. unfold wrap_uint64, ring_size. rewrite (Z.mod_small (i + 1)); lia.
Qed.

Lemma buffer_string_ok value st :
  ring_ok st -> ring_ok (buffer_string value st).2.
Proof.
  intros [Hlen Hidx]. split; cbn.
  - by rewrite length_insert.
  - rewrite next_index by done. apply Z.mod_pos_bound. lia.
Qed.

Lemma thread_state_insert t t' st store :
  thread_state t' (<[ t := st ]> store)
  = if decide (t = t') then st else thread_state t' store.
Proof.
  unfold thread_state. destruct (decide (t = t')) as [->|Hne].
  - by rewrite lookup_insert_eq.
  - by rewrite lookup_insert_ne.
Qed.

Lemma buffer_string_on_state t value store t' :
  thread_state t' (buffer_string_on t value store).2
  = if decide (t = t')
    then (buffer_string value (thread_state t store)).2
    else thread_state t' store.
Proof. unfold buffer_string_on. cbn. apply thread_state_insert. Qed.

Lemma buffer_string_on_ok t value store :
  store_ok store -> store_ok (buffer_string_on t value store).2.
Proof.
  intros Hok t'. rewrite buffer_string_on_state.
  destruct (decide (t = t')); [apply buffer_string_ok|]; apply Hok.
Qed.

Lemma run_app calls1 calls2 store :
  run (calls1 ++ calls2) store = run calls2 (run calls1 store).
Proof. apply foldl_app. Qed.

Lemma run_ok calls : forall store, store_ok store -> store_ok (run calls store).
Proof.
  induction calls as [|[t v] calls IH]; intros store Hok; [done|].
  apply IH. by apply buffer_string_on_ok.
Qed.

Lemma empty_store_ok : store_ok (∅ : gmap nat (ring_state T)).
Proof.
  intros t. unfold thread_state. rewrite lookup_empty. apply ring_init_ok.
Qed.

Lemma calls_on_cons t c calls :
  calls_on t (c :: calls)
  = ((if decide (c.1 = t) then 1 else 0) + calls_on t calls)%nat.
Proof.
  unfold calls_on. rewrite filter_cons.
  destruct (decide (c.1 = t)); reflexivity.
Qed.

(** A slot written [k] calls ago keeps its contents through further
    calls of the thread as long as they are fewer than 16 in all. *)
Lemma slot_kept t (ptr : nat) value calls :
  forall store (k : nat),
    store_ok store ->
    (ptr < 16)%nat ->
    slot t ptr store = Some value ->
    index (thread_state t store) = (Z.of_nat ptr + 1 + Z.of_nat k) mod 16 ->
    (k + calls_on t calls < 16)%nat ->
    slot t ptr (run calls store) = Some value /\
    index (thread_state t (run calls store))
    = (Z.of_nat ptr + 1 + Z.of_nat (k + calls_on t calls)) mod 16.
Proof.
  induction calls as [|[t' v] calls IH]; intros store k Hok Hptr Hslot Hidx Hk.
  - cbn. unfold calls_on. cbn. rewrite Nat.add_0_r. done.
  - rewrite calls_on_cons in Hk. cbn [fst] in Hk.
    change (run ((t', v) :: calls) store)
      with (run calls (buffer_string_on t' v store).2).
    rewrite calls_on_cons. cbn [fst].
    destruct (decide (t' = t)) as [->|Hne].
    + replace (k + (1 + calls_on t calls))%nat
        with (S k + calls_on t calls)%nat by lia.
      apply IH; [by apply buffer_string_on_ok | done | | | lia].
      * unfold slot. rewrite buffer_string_on_state, decide_True by done.
        cbn. rewrite list_lookup_insert_ne; [exact Hslot|].
        rewrite Hidx. intros Heq.
        pose proof (Z.mod_pos_bound (Z.of_nat ptr + 1 + Z.of_nat k) 16).
        assert (Hz : (Z.of_nat ptr + 1 + Z.of_nat k) mod 16 = Z.of_nat ptr)
          by lia.
        assert (Hk' : 0 <= Z.of_nat k < 15) by lia.
        assert (Hp : 0 <= Z.of_nat ptr < 16) by lia.
        destruct (Z_lt_le_dec (Z.of_nat ptr + 1 + Z.of_nat k) 16).
        -- rewrite Z.mod_small in Hz by lia. lia.
        -- replace (Z.of_nat ptr + 1 + Z.of_nat k)
             with ((Z.of_nat ptr + 1 + Z.of_nat k - 16) + 1 * 16) in Hz by lia.
           rewrite Z.mod_add, Z.mod_small in Hz by lia. lia.
      * rewrite buffer_string_on_state, decide_True by done. cbn.
        rewrite next_index by apply Hok. rewrite Hidx.
        rewrite Zplus_mod_idemp_l. f_equal. lia.
    + apply IH; [by apply buffer_string_on_ok | done | | | lia].
      * unfold slot. by rewrite buffer_string_on_state, decide_False.
      * by rewrite buffer_string_on_state, decide_False.
Qed.

(** C9: at every moment of any run, a thread's ring has 16 slots and
    its index lies in [0, 16).  A call of [buffer_string] stores the
    value in the slot the index names, leaves the other slots as they
    are, moves the index on by one modulo 16 and returns a pointer
    into the slot it wrote.  That slot keeps the value through any
    further calls, of this and of other threads, of which fewer than 16
    are calls of the same thread; the 16th such call writes it anew. *)
Theorem buffer_string_ring :
  forall (history later : list (nat * list T)) (t : nat)
         (value next : list T),
    (calls_on t later < 16)%nat ->
    let store := run history ∅ in
    let ptr := (buffer_string_on t value store).1 in
    let store1 := (buffer_string_on t value store).2 in
    (length (ring_buffer (thread_state t store)) = 16%nat /\
     0 <= index (thread_state t store) < 16) /\
    (length (ring_buffer (thread_state t store1)) = 16%nat /\
     0 <= index (thread_state t store1) < 16) /\
    ptr = Z.to_nat (index (thread_state t store)) /\
    slot t ptr store1 = Some value /\
    (forall other, other <> ptr -> slot t other store1 = slot t other store) /\
    index (thread_state t store1)
    = (index (thread_state t store) + 1) mod 16 /\
    slot t ptr (run later store1) = Some value /\
    (calls_on t later = 15%nat ->
     slot t ptr (run (later ++ [(t, next)]) store1) = Some next).
Proof.
  intros history later t value next Hlater store ptr store1.
  assert (Hok : store_ok store) by apply run_ok, empty_store_ok.
  assert (Hok1 : store_ok store1) by by apply buffer_string_on_ok.
  destruct (Hok t) as [Hlen Hidx].
  assert (Hptr : ptr = Z.to_nat (index (thread_state t store))) by reflexivity.
  assert (Hlt : (ptr < 16)%nat) by lia.
  assert (Hst1 : thread_state t store1
                 = (buffer_string value (thread_state t store)).2).
  { unfold store1. by rewrite buffer_string_on_state, decide_True. }
  assert (Hw : slot t ptr store1 = Some value).
  { unfold slot. rewrite Hst1. cbn. apply list_lookup_insert_eq. lia. }
  assert (Hi1 : index (thread_state t store1)
                = (index (thread_state t store) + 1) mod 16).
  { rewrite Hst1. cbn. by apply next_index. }
  destruct (slot_kept t ptr value later store1 0) as [Hkept Hidx'];
    [done | done | done | | lia |].
  { rewrite Hi1. f_equal. lia. }
  split; [done|]. split; [apply Hok1|]. split; [done|]. split; [done|].
  split.
  { intros other Hother. unfold slot. rewrite Hst1. cbn.
    apply list_lookup_insert_ne. lia. }
  split; [done|]. split; [done|].
  intros H15. rewrite run_app.
  change (run [(t, next)] (run later store1))
    with (buffer_string_on t next (run later store1)).2.
  assert (Hback : index (thread_state t (run later store1)) = Z.of_nat ptr).
  { rewrite Hidx', H15. cbn [Nat.add].
    replace (Z.of_nat ptr + 1 + Z.of_nat 15)
      with (Z.of_nat ptr + 1 * 16) by lia.
    rewrite Z.mod_add, Z.mod_small; lia. }
  destruct (run_ok later store1 Hok1 t) as [Hlen' _].
  unfold slot. rewrite buffer_string_on_state, decide_True by done.
  unfold buffer_string. cbn [snd ring_buffer].
  rewrite Hback, Nat2Z.id. apply list_lookup_insert_eq. lia.
Qed.

End Ring.

(** ** [fix_type_name] *)

Section TypeNames.

Lemma starts_with_length (s p : std_string) :
  starts_with s p = true -> (length p <= length s)%nat.
Proof.
  revert s. induction p as [|c p IH]; intros [|d s] Hp; simpl in *;
    try lia; try discriminate.
  apply andb_prop in Hp as [_ Hp]. apply IH in Hp. lia.
Qed.

(** Cutting text out behind a ['<'] cannot bring a ['<']-free text to
    the front of the string. *)
Lemma starts_with_after_cut (p : std_string) :
  forall (s rest : std_string) (i : nat),
    s !! i = Some "<"%char ->
    Forall (fun c => c <> "<"%char) p ->
    starts_with (take (i + 1) s ++ rest) p = true ->
    starts_with s p = true.
Proof.
  induction p as [|c p IH]; intros s rest i Hi Hp Hcut; [reflexivity|].
  destruct s as [|d s]; [discriminate|].
  inversion Hp as [|? ? Hc Hp']; subst.
  rewrite Nat.add_1_r in Hcut. cbn [take app starts_with] in Hcut.
  apply andb_prop in Hcut as [Hcd Hcut]. cbn [starts_with]. rewrite Hcd.
  destruct i as [|i].
  - cbn in Hi. injection Hi as ->.
    destruct (Ascii.eqb_spec c "<"%char); [done|discriminate].
  - cbn in Hi. apply (IH s rest i Hi Hp').
    by rewrite Nat.add_1_r.
Qed.

Lemma char_at_is_lookup (s : std_string) i c :
  char_at_is s i c = true -> s !! i = Some c.
Proof.
  unfold char_at_is. destruct (s !! i) as [d|]; [|discriminate].
  destruct (Ascii.eqb_spec d c); [congruence|discriminate].
Qed.

Lemma strip_loop_step fuel str i in_ :
  strip_loop (S fuel) str i in_
  = if decide (i < length in_)%nat
    then strip_loop fuel str (i + 1) (strip_at str i in_)
    else in_.
Proof. reflexivity. Qed.

Lemma strip_at_length str i s : (length (strip_at str i s) <= length s)%nat.
Proof.
  unfold strip_at, substr_n, substr, strlen.
  destruct (_ && _); [|lia].
  rewrite length_app, length_take, !length_drop. lia.
Qed.

Lemma strip_at_leading str i s p :
  Forall (fun c => c <> "<"%char) p ->
  starts_with s p = false -> starts_with (strip_at str i s) p = false.
Proof.
  intros Hp Hs. unfold strip_at.
  destruct (char_at_is s i "<") eqn:Hlt; [|done].
  destruct (starts_with (substr s (i + 1)) str); [|done]. cbn [andb].
  destruct (starts_with (substr_n s 0 (i + 1) ++ _) p) eqn:Hcut; [|done].
  unfold substr_n in Hcut. rewrite drop_0 in Hcut.
  apply starts_with_after_cut in Hcut;
    [congruence | by apply char_at_is_lookup | done].
Qed.

Lemma strip_loop_length fuel str :
  forall i s, (length (strip_loop fuel str i s) <= length s)%nat.
Proof.
  induction fuel as [|fuel IH]; intros i s; [done|].
  rewrite strip_loop_step. case_decide; [|done].
  etrans; [apply IH|apply strip_at_length].
Qed.

Lemma strip_loop_leading fuel str p :
  Forall (fun c => c <> "<"%char) p ->
  forall i s, starts_with s p = false ->
              starts_with (strip_loop fuel str i s) p = false.
Proof.
  intros Hp. induction fuel as [|fuel IH]; intros i s Hs; [done|].
  rewrite strip_loop_step. case_decide; [|done].
  by apply IH, strip_at_leading.
Qed.

(** The fuel of the inner loop is enough: more of it changes nothing. *)
Lemma strip_loop_fuel_enough fuel str :
  forall fuel' i s,
    (length s - i <= fuel)%nat -> (length s - i <= fuel')%nat ->
    strip_loop fuel str i s = strip_loop fuel' str i s.
Proof.
  induction fuel as [|fuel IH]; intros fuel' i s Hf Hf'.
  - destruct fuel' as [|fuel']; [done|].
    rewrite strip_loop_step. case_decide; [lia|done].
  - destruct fuel' as [|fuel'].
    + rewrite strip_loop_step. case_decide; [lia|done].
    + rewrite !strip_loop_step. case_decide; [|done].
      pose proof (strip_at_length str i s). apply IH; lia.
Qed.

Lemma remove_list_entries p :
  p ∈ remove_list ->
  Forall (fun c => c <> "<"%char) p /\ (0 < length p)%nat.
Proof.
  revert p. apply Forall_forall. unfold remove_list, lit.
  cbn [list_ascii_of_string].
  repeat (first [ apply Forall_nil | apply Forall_cons | split ]);
    first [ discriminate | cbn [length]; lia ].
Qed.

(** The loop over the entries keeps every entry away from the front
    and hands the recursive call a strictly shorter string. *)
Lemma fix_entries_leading (self : std_string -> std_string) (n : nat) :
  (forall s', (length s' < n)%nat ->
              forall p, p ∈ remove_list -> starts_with (self s') p = false) ->
  forall entries tried s,
    tried ++ entries = remove_list ->
    (length s <= n)%nat ->
    (forall p, p ∈ tried -> starts_with s p = false) ->
    forall p, p ∈ remove_list ->
              starts_with (fix_entries self entries s) p = false.
Proof.
  intros Hself. induction entries as [|str rest IH];
    intros tried s Hsplit Hlen Htried p Hp.
  - rewrite app_nil_r in Hsplit. subst tried. cbn. by apply Htried.
  - assert (Hstr : str ∈ remove_list).
    { rewrite <- Hsplit. apply elem_of_app. right. by left. }
    destruct (remove_list_entries str Hstr) as [_ Hpos].
    cbn [fix_entries]. destruct (starts_with s str) eqn:Hlead.
    + apply Hself; [|done]. apply starts_with_length in Hlead.
      unfold substr, strlen. rewrite length_drop. lia.
    + apply (IH (tried ++ [str])); [by rewrite <- app_assoc | | | done].
      * unfold strip_after_lt.
        pose proof (strip_loop_length (length s) str 0 s). lia.
      * intros q Hq. unfold strip_after_lt. apply strip_loop_leading.
        -- apply remove_list_entries. rewrite <- Hsplit.
           apply elem_of_app in Hq as [Hq|Hq];
             [by apply elem_of_app; left|].
           apply list_elem_of_singleton in Hq as ->.
           apply elem_of_app. right. by left.
        -- apply elem_of_app in Hq as [Hq|Hq]; [by apply Htried|].
           by apply list_elem_of_singleton in Hq as ->.
Qed.

(** No entry of the list begins the result. *)
Lemma fix_type_name_fuel_leading fuel :
  forall s, (length s < fuel)%nat ->
            forall p, p ∈ remove_list ->
                      starts_with (fix_type_name_fuel fuel s) p = false.
Proof.
  induction fuel as [|fuel IH]; intros s Hlen p Hp; [lia|].
  cbn [fix_type_name_fuel].
  apply (fix_entries_leading _ (length s) (fun s' Hs' => IH s' ltac:(lia))
           remove_list [] s); [done | done | | done].
  intros q Hq. by apply elem_of_nil in Hq.
Qed.

Lemma leading_clean_spec s :
  leading_clean s = true <->
  forall p, p ∈ remove_list -> starts_with s p = false.
Proof.
  unfold leading_clean, entry_at, substr. rewrite drop_0.
  rewrite negb_true_iff. split.
  - intros Hex p Hp. destruct (starts_with s p) eqn:Hs; [|done].
    rewrite <- Hex. symmetry. apply existsb_exists. exists p.
    split; [by apply list_elem_of_In|done].
  - intros Hall. destruct (existsb _ _) eqn:Hex; [|done].
    apply existsb_exists in Hex as (p & Hp & Hs).
    apply list_elem_of_In in Hp. rewrite Hall in Hs; done.
Qed.

Lemma fix_type_name_leading_clean s : leading_clean (fix_type_name s) = true.
Proof.
  apply leading_clean_spec. intros p Hp.
  apply fix_type_name_fuel_leading; [lia|done].
Qed.

(** The fuel of the recursion is enough: more of it changes nothing. *)
Lemma fix_entries_ext (self self' : std_string -> std_string) (n : nat) :
  (forall s', (length s' < n)%nat -> self s' = self' s') ->
  forall entries s,
    (forall p, p ∈ entries -> p ∈ remove_list) ->
    (length s <= n)%nat ->
    fix_entries self entries s = fix_entries self' entries s.
Proof.
  intros Hself. induction entries as [|str rest IH]; intros s Hin Hlen; [done|].
  cbn [fix_entries]. destruct (starts_with s str) eqn:Hlead.
  - apply Hself. apply starts_with_length in Hlead.
    destruct (remove_list_entries str) as [_ Hpos]; [apply Hin; by left|].
    unfold substr, strlen. rewrite length_drop. lia.
  - apply IH.
    + intros p Hp. apply Hin. by right.
    + unfold strip_after_lt.
      pose proof (strip_loop_length (length s) str 0 s). lia.
Qed.

Lemma fix_type_name_fuel_enough fuel :
  forall fuel' s,
    (length s < fuel)%nat -> (length s < fuel')%nat ->
    fix_type_name_fuel fuel s = fix_type_name_fuel fuel' s.
Proof.
  induction fuel as [|fuel IH]; intros fuel' s Hf Hf'; [lia|].
  destruct fuel' as [|fuel']; [lia|]. cbn [fix_type_name_fuel].
  apply (fix_entries_ext _ _ (length s)); [|done|done].
  intros s' Hs'. apply IH; lia.
Qed.

Lemma fix_type_name_unfold s :
  fix_type_name s = fix_entries fix_type_name remove_list s.
Proof.
  unfold fix_type_name at 1. cbn [fix_type_name_fuel].
  apply (fix_entries_ext _ _ (length s)); [|done|done].
  intros s' Hs'. apply fix_type_name_fuel_enough; lia.
Qed.

(** A name with nothing to remove is returned as it is. *)
Lemma inner_clean_at s str i :
  inner_clean s = true -> str ∈ remove_list ->
  char_at_is s i "<" && starts_with (substr s (i + 1)) str = false.
Proof.
  intros Hclean Hstr. destruct (char_at_is s i "<") eqn:Hlt; [|done].
  cbn [andb]. destruct (starts_with _ str) eqn:Hs; [|done].
  unfold inner_clean in Hclean. rewrite forallb_forall in Hclean.
  specialize (Hclean i). rewrite Hlt in Hclean. cbn [andb] in Hclean.
  assert (Hent : entry_at s (i + 1) = true).
  { apply existsb_exists. exists str. split; [by apply list_elem_of_In|done]. }
  rewrite Hent in Hclean. symmetry. apply Hclean.
  apply in_seq. apply char_at_is_lookup, lookup_lt_Some in Hlt. lia.
Qed.

Lemma strip_loop_clean s str :
  inner_clean s = true -> str ∈ remove_list ->
  forall fuel i, strip_loop fuel str i s = s.
Proof.
  intros Hclean Hstr. induction fuel as [|fuel IH]; intros i; [done|].
  rewrite strip_loop_step. case_decide; [|done].
  unfold strip_at. rewrite inner_clean_at by done. apply IH.
Qed.

Lemma fix_entries_clean self s :
  leading_clean s = true -> inner_clean s = true ->
  forall entries, (forall p, p ∈ entries -> p ∈ remove_list) ->
                  fix_entries self entries s = s.
Proof.
  intros Hlead Hclean. induction entries as [|str rest IH]; intros Hin; [done|].
  cbn [fix_entries].
  rewrite (proj1 (leading_clean_spec s) Hlead str) by (apply Hin; by left).
  unfold strip_after_lt.
  rewrite strip_loop_clean by (done || apply Hin; by left).
  apply IH. intros p Hp. apply Hin. by right.
Qed.

Lemma fix_type_name_clean s :
  leading_clean s = true -> inner_clean s = true -> fix_type_name s = s.
Proof.
  intros Hlead Hclean. unfold fix_type_name. cbn [fix_type_name_fuel].
  by apply fix_entries_clean.
Qed.

(** The result of [fix_type_name] never begins with an entry of the
    list, and a name that neither begins with an entry nor has one right
    after a ['<'] is returned unchanged.  So a second application changes
    nothing whenever the first left no entry right after a ['<']. *)
Lemma fix_type_name_idempotent_when_clean :
  forall s,
    inner_clean (fix_type_name s) = true ->
    fix_type_name (fix_type_name s) = fix_type_name s.
Proof.
  intros s Hclean. apply fix_type_name_clean; [|done].
  apply fix_type_name_leading_clean.
Qed.

(** The converse: a removal shortens the string, so a name that comes
    back unchanged had nothing to remove. *)
Lemma strip_at_shrinks str i s :
  (0 < length str)%nat ->
  char_at_is s i "<" && starts_with (substr s (i + 1)) str = true ->
  (length (strip_at str i s) < length s)%nat.
Proof.
  intros Hpos Hmatch. unfold strip_at. rewrite Hmatch.
  apply andb_prop in Hmatch as [Hlt Hstr].
  apply char_at_is_lookup, lookup_lt_Some in Hlt.
  apply starts_with_length in Hstr. unfold substr in Hstr.
  rewrite length_drop in Hstr.
  unfold substr_n, substr, strlen.
  rewrite length_app, length_take, !length_drop. lia.
Qed.

Lemma strip_loop_same_length fuel str :
  (0 < length str)%nat ->
  forall i s,
    length (strip_loop fuel str i s) = length s ->
    strip_loop fuel str i s = s /\
    forall j, (i <= j < i + fuel)%nat ->
              char_at_is s j "<" && starts_with (substr s (j + 1)) str = false.
Proof.
  intros Hpos. induction fuel as [|fuel IH]; intros i s Hlen.
  - split; [done|]. intros j Hj. lia.
  - rewrite strip_loop_step in Hlen |- *. case_decide as Hi.
    + destruct (char_at_is s i "<" && starts_with (substr s (i + 1)) str)
        eqn:Hmatch.
      * pose proof (strip_at_shrinks str i s Hpos Hmatch).
        pose proof (strip_loop_length fuel str (i + 1) (strip_at str i s)).
        lia.
      * assert (Hsame : strip_at str i s = s)
          by (unfold strip_at; by rewrite Hmatch).
        rewrite Hsame in Hlen |- *.
        destruct (IH (i + 1)%nat s Hlen) as [Heq Hno]. split; [done|].
        intros j Hj. destruct (decide (j = i)) as [->|Hne]; [done|].
        apply Hno. lia.
    + split; [done|]. intros j Hj.
      unfold char_at_is. rewrite lookup_ge_None_2; [done|lia].
Qed.

Lemma strip_after_lt_same_length str s :
  (0 < length str)%nat ->
  length (strip_after_lt str s) = length s ->
  strip_after_lt str s = s /\
  forall j, char_at_is s j "<" && starts_with (substr s (j + 1)) str = false.
Proof.
  intros Hpos Hlen. unfold strip_after_lt in *.
  destruct (strip_loop_same_length (length s) str Hpos 0 s Hlen) as [Heq Hno].
  split; [done|]. intros j.
  destruct (decide (j < length s)%nat); [apply Hno; lia|].
  unfold char_at_is. rewrite lookup_ge_None_2; [done|lia].
Qed.

Lemma fix_entries_not_leading self :
  forall entries s,
    (forall p, p ∈ entries -> p ∈ remove_list) ->
    (forall p, p ∈ entries -> starts_with s p = false) ->
    (length (fix_entries self entries s) <= length s)%nat /\
    (length (fix_entries self entries s) = length s ->
     forall p j, p ∈ entries ->
       char_at_is s j "<" && starts_with (substr s (j + 1)) p = false).
Proof.
  induction entries as [|str rest IH]; intros s Hin Hlead.
  - split; [done|]. intros _ p j Hp. by apply elem_of_nil in Hp.
  - cbn [fix_entries]. rewrite (Hlead str) by by left.
    destruct (remove_list_entries str) as [_ Hpos]; [apply Hin; by left|].
    pose proof (strip_loop_length (length s) str 0 s) as Hle.
    fold (strip_after_lt str s) in Hle.
    destruct (IH (strip_after_lt str s)) as [Hle' Hsame].
    { intros p Hp. apply Hin. by right. }
    { intros p Hp. apply strip_loop_leading.
      - apply remove_list_entries, Hin. by right.
      - apply Hlead. by right. }
    split; [lia|]. intros Hlen p j Hp.
    destruct (strip_after_lt_same_length str s Hpos ltac:(lia)) as [Heq Hno].
    rewrite Heq in Hsame, Hlen.
    apply elem_of_cons in Hp as [->|Hp]; [apply Hno|].
    by apply Hsame.
Qed.

Lemma fix_type_name_fixed_point t :
  fix_type_name t = t <-> leading_clean t = true /\ inner_clean t = true.
Proof.
  split; [|intros [? ?]; by apply fix_type_name_clean].
  intros Hfix.
  assert (Hlead : leading_clean t = true).
  { rewrite <- Hfix. apply fix_type_name_leading_clean. }
  split; [done|].
  unfold fix_type_name in Hfix. cbn [fix_type_name_fuel] in Hfix.
  destruct (fix_entries_not_leading (fix_type_name_fuel (length t))
              remove_list t) as [_ Hno]; [done | by apply leading_clean_spec |].
  specialize (Hno ltac:(by rewrite Hfix)).
  unfold inner_clean. apply forallb_forall. intros i _.
  apply negb_true_iff.
  destruct (char_at_is t i "<") eqn:Hlt; [|done]. cbn [andb].
  destruct (entry_at t (i + 1)) eqn:Hent; [|done].
  apply existsb_exists in Hent as (p & Hp & Hstr).
  apply list_elem_of_In in Hp. specialize (Hno p i Hp).
  rewrite Hlt, Hstr in Hno. done.
Qed.

Lemma fix_type_name_idempotent_only_when_clean s :
  fix_type_name (fix_type_name s) = fix_type_name s ->
  inner_clean (fix_type_name s) = true.
Proof. intros Hfix. by apply fix_type_name_fixed_point in Hfix as [_ ?]. Qed.

(** C1 does not hold of the code: [fix_type_name] is not idempotent.
    Behind a ['<'] one call removes an entry at most once at a place,
    the index moving on after the removal, so of two entries in a row
    one is left, and a second call removes it: the result of the second
    call differs from that of the first. *)
Theorem fix_type_name_not_idempotent :
  fix_type_name (lit "bar<struct struct baz>") = lit "bar<struct baz>" /\
  fix_type_name (lit "bar<struct baz>") = lit "bar<baz>" /\
  fix_type_name (fix_type_name (lit "bar<struct struct baz>"))
  <> fix_type_name (lit "bar<struct struct baz>").
Proof. repeat split. vm_compute. discriminate. Qed.

(** At the front of a name the same entries in a row are all removed in
    one call, whatever their order, since the leading case calls
    [fix_type_name] again on the rest. *)
Lemma fix_type_name_leading_repeats :
  fix_type_name (lit "struct struct baz") = lit "baz" /\
  fix_type_name (lit "vtil::struct baz") = lit "baz" /\
  fix_type_name (lit "bar<vtil::struct baz>") = lit "bar<struct baz>".
Proof. by vm_compute. Qed.

(** Names without ['<'] are among those the second application leaves
    alone. *)
Lemma fix_entries_plain (self : std_string -> std_string) (n : nat) :
  (forall s', (length s' < n)%nat -> Forall (fun c => c <> "<"%char) s' ->
              Forall (fun c => c <> "<"%char) (self s')) ->
  forall entries s,
    (forall p, p ∈ entries -> p ∈ remove_list) ->
    (length s <= n)%nat ->
    Forall (fun c => c <> "<"%char) s ->
    Forall (fun c => c <> "<"%char) (fix_entries self entries s).
Proof.
  intros Hself.
  induction entries as [|str rest IH]; intros s Hin Hlen Hs; [done|].
  cbn [fix_entries]. destruct (starts_with s str) eqn:Hlead.
  - apply Hself; [|by apply Forall_drop].
    apply starts_with_length in Hlead.
    destruct (remove_list_entries str) as [_ Hpos]; [apply Hin; by left|].
    unfold substr, strlen. rewrite length_drop. lia.
  - assert (Hsame : strip_after_lt str s = s).
    { unfold strip_after_lt. generalize (length s) at 1. intros fuel.
      generalize 0%nat. induction fuel as [|fuel IHf]; intros i; [done|].
      rewrite strip_loop_step. case_decide; [|done].
      unfold strip_at.
      destruct (char_at_is s i "<") eqn:Hlt; [|apply IHf].
      apply char_at_is_lookup in Hlt.
      rewrite Forall_forall in Hs. exfalso.
      apply (Hs "<"%char); [|done]. by eapply list_elem_of_lookup_2. }
    rewrite Hsame. apply IH; [|done|done].
    intros p Hp. apply Hin. by right.
Qed.

Lemma fix_type_name_plain s :
  Forall (fun c => c <> "<"%char) s ->
  fix_type_name (fix_type_name s) = fix_type_name s.
Proof.
  intros Hs. apply fix_type_name_clean; [apply fix_type_name_leading_clean|].
  assert (Hplain : forall fuel s', (length s' < fuel)%nat ->
            Forall (fun c => c <> "<"%char) s' ->
            Forall (fun c => c <> "<"%char) (fix_type_name_fuel fuel s')).
  { induction fuel as [|fuel IH]; intros s' Hlen Hs'; [lia|].
    cbn [fix_type_name_fuel].
    apply (fix_entries_plain _ (length s')); [|done|done|done].
    intros s'' Hlen'' Hs''. apply IH; [lia|done]. }
  specialize (Hplain (S (length s)) s ltac:(lia) Hs).
  fold (fix_type_name s) in Hplain.
  unfold inner_clean. apply forallb_forall. intros i Hi.
  destruct (char_at_is (fix_type_name s) i "<") eqn:Hlt; [|done].
  apply char_at_is_lookup in Hlt. rewrite Forall_forall in Hplain.
  exfalso. apply (Hplain "<"%char); [|done]. by eapply list_elem_of_lookup_2.
Qed.

End TypeNames.


(** ** The properties on concrete values *)

Lemma as_string_container_witness :
  returns_string int_traits = true /\
  exists ss,
    Forall2 (fun e s => as_string int_traits e = Some s) [1; 2; 3] ss /\
    as_string (vector_traits int_traits) [1; 2; 3]
    = Some (lit "{" ++ join (lit ", ") ss ++ lit "}") /\
    ([1; 2; 3] = [] ->
     as_string (vector_traits int_traits) [1; 2; 3] = Some (lit "{}")).
Proof.
  split; [reflexivity|].
  apply (as_string_container (list Z) Z int_traits id [1; 2; 3]).
  reflexivity.
Defined.

Lemma offset_sign_and_magnitude_witness :
  in_int64 (-16) /\
  drop 2 (offset (-16)) = lit "0x" ++ lower_hex (Z.abs (-16)).
Proof.
  assert (H : in_int64 (-16)) by (unfold in_int64; lia).
  split; [exact H|].
  apply (offset_sign_and_magnitude (-16) H).
Defined.

Lemma hex_round_trip_witness :
  in_int64 (-255) /\ parse_signed_hex (hex true (-255)) = Some (-255).
Proof.
  assert (H : in_int64 (-255)) by (unfold in_int64; lia).
  split; [exact H|].
  apply (hex_round_trip true (-255) H).
Defined.

Lemma as_string_optional_witness :
  returns_string int_traits = true /\
  exists s, as_string int_traits 7 = Some s /\
            as_string (optional_traits int_traits) (Some 7) = Some s.
Proof.
  split; [reflexivity|].
  apply (as_string_optional (option Z) Z int_traits id not_iterable (Some 7)).
  reflexivity.
Defined.

Lemma as_string_wide_witness :
  Forall (fun c => c <> 0) [104; 8364] /\
  [104; 8364; 0; 33] = [104; 8364] ++ 0 :: [33] /\
  exists out,
    as_string (Traits None None (is_wc_str id) not_iterable)
              [104; 8364; 0; 33] = Some out /\
    length out = length [104; 8364] /\
    forall i c, [104; 8364] !! i = Some c -> out !! i = Some (narrow c).
Proof.
  assert (H : Forall (fun c => c <> 0) [104; 8364])
    by (repeat constructor; discriminate).
  split; [exact H|]. split; [reflexivity|].
  apply (as_string_wide (list Z) [104; 8364; 0; 33] id id not_iterable
           [104; 8364] [33] H).
  reflexivity.
Defined.

Lemma buffer_string_ring_witness :
  (calls_on 0 [(1%nat, lit "x"); (0%nat, lit "b")] < 16)%nat /\
  slot 0 (buffer_string_on 0 (lit "v") (run [(0%nat, lit "a")] ∅)).1
       (run [(1%nat, lit "x"); (0%nat, lit "b")]
            (buffer_string_on 0 (lit "v") (run [(0%nat, lit "a")] ∅)).2)
  = Some (lit "v").
Proof.
  assert (H : (calls_on 0 [(1%nat, lit "x"); (0%nat, lit "b")] < 16)%nat)
    by (vm_compute; lia).
  split; [exact H|].
  apply (@buffer_string_ring ascii [(0%nat, lit "a")]
           [(1%nat, lit "x"); (0%nat, lit "b")] 0%nat (lit "v") (lit "n") H).
Defined.


(** * Further properties of the header *)

(** ** [fix_type_name], continued *)

Section TypeNamesMore.

Lemma starts_with_take (s p : std_string) :
  starts_with s p = true -> take (length p) s = p.
Proof.
  revert s. induction p as [|c p IH]; intros [|d s] Hp; try done.
  cbn in Hp. apply andb_prop in Hp as [Hc Hp].
  apply Ascii.eqb_eq in Hc as ->. cbn. f_equal. by apply IH.
Qed.

(** A round of the inner loop that changes the string cuts [str] out. *)
Lemma strip_at_cut str i s :
  char_at_is s i "<" && starts_with (substr s (i + 1)) str = true ->
  s = take (i + 1) s ++ str ++ drop (i + 1 + length str) s /\
  strip_at str i s = take (i + 1) s ++ drop (i + 1 + length str) s.
Proof.
  intros Hmatch. unfold strip_at. rewrite Hmatch.
  apply andb_prop in Hmatch as [_ Hstr].
  apply starts_with_take in Hstr. unfold substr in Hstr.
  split; [|by unfold substr_n, substr, strlen; rewrite drop_0].
  rewrite <- (take_drop (i + 1) s) at 1. f_equal.
  rewrite <- (take_drop (length str) (drop (i + 1) s)) at 1.
  by rewrite Hstr, drop_drop.
Qed.

Lemma strip_at_sublist str i s : strip_at str i s `sublist_of` s.
Proof.
  destruct (char_at_is s i "<" && starts_with (substr s (i + 1)) str)
    eqn:Hmatch; [|by unfold strip_at; rewrite Hmatch].
  destruct (strip_at_cut str i s Hmatch) as [Hs ->].
  rewrite Hs at 3. apply sublist_app; [done|]. by apply sublist_inserts_l.
Qed.

Lemma strip_loop_sublist fuel str :
  forall i s, strip_loop fuel str i s `sublist_of` s.
Proof.
  induction fuel as [|fuel IH]; intros i s; [done|].
  rewrite strip_loop_step. case_decide; [|done].
  etrans; [apply IH|apply strip_at_sublist].
Qed.

Lemma fix_entries_sublist (self : std_string -> std_string) :
  (forall s', self s' `sublist_of` s') ->
  forall entries s, fix_entries self entries s `sublist_of` s.
Proof.
  intros Hself. induction entries as [|str rest IH]; intros s; [done|].
  cbn [fix_entries]. destruct (starts_with s str).
  - etrans; [apply Hself|apply sublist_drop].
  - etrans; [apply IH|apply strip_loop_sublist].
Qed.

Lemma fix_type_name_fuel_sublist fuel :
  forall s, fix_type_name_fuel fuel s `sublist_of` s.
Proof.
  induction fuel as [|fuel IH]; intros s; [done|].
  by apply fix_entries_sublist.
Qed.

(** X1: [fix_type_name] only deletes: its result is the input with some
    characters left out, the others in their order; so it is never
    longer than the input. *)
Theorem fix_type_name_only_deletes :
  forall s,
    fix_type_name s `sublist_of` s /\
    (length (fix_type_name s) <= length s)%nat.
Proof.
  intros s. assert (H := fix_type_name_fuel_sublist (S (length s)) s).
  split; [exact H|]. by apply sublist_length.
Qed.

(** X2: whatever the name, the result of [fix_type_name] begins with
    none of ["struct "], ["class "], ["enum "], ["vtil::"]. *)
Theorem fix_type_name_strips_every_leading_entry :
  forall s p, p ∈ remove_list -> starts_with (fix_type_name s) p = false.
Proof.
  intros s p Hp. apply fix_type_name_fuel_leading; [lia|done].
Qed.

(** X3: [fix_type_name] returns a name unchanged exactly when the name
    neither begins with an entry of the list nor has one right after a
    ['<']. *)
Theorem fix_type_name_unchanged_iff :
  forall t,
    fix_type_name t = t <->
    (forall p, p ∈ remove_list -> starts_with t p = false) /\
    (forall i p, p ∈ remove_list -> t !! i = Some "<"%char ->
                 starts_with (drop (i + 1) t) p = false).
Proof.
  intros t. rewrite fix_type_name_fixed_point, leading_clean_spec.
  apply and_iff_compat_l. split.
  - intros Hclean i p Hp Hi.
    pose proof (inner_clean_at t p i Hclean Hp) as Hno.
    unfold char_at_is in Hno. rewrite Hi in Hno. by cbn in Hno.
  - intros Hno. unfold inner_clean. apply forallb_forall. intros i _.
    apply negb_true_iff.
    destruct (char_at_is t i "<") eqn:Hlt; [|done]. cbn [andb].
    apply char_at_is_lookup in Hlt.
    destruct (entry_at t (i + 1)) eqn:Hent; [|done].
    apply existsb_exists in Hent as (p & Hp & Hstr).
    apply list_elem_of_In in Hp. unfold substr in Hstr.
    by rewrite (Hno i p Hp Hlt) in Hstr.
Qed.

Lemma starts_with_split (s p : std_string) :
  starts_with s p = true -> s = p ++ drop (length p) s.
Proof.
  intros Hp. rewrite <- (take_drop (length p) s) at 1.
  by rewrite (starts_with_take s p Hp).
Qed.

Section Kept.

Context (P : ascii -> Prop) `{!forall c, Decision (P c)}.
Hypothesis entries_not_P : forall p c, p ∈ remove_list -> c ∈ p -> ~ P c.

Lemma filter_entry p : p ∈ remove_list -> filter P p = [].
Proof.
  intros Hp. assert (Hall : forall c, c ∈ p -> ~ P c) by eauto.
  clear Hp. induction p as [|c p IH]; [done|].
  rewrite filter_cons_False by (apply Hall; by left).
  apply IH. intros d Hd. apply Hall. by right.
Qed.

Lemma strip_at_filter str i s :
  str ∈ remove_list -> filter P (strip_at str i s) = filter P s.
Proof.
  intros Hstr.
  destruct (char_at_is s i "<" && starts_with (substr s (i + 1)) str)
    eqn:Hmatch; [|by unfold strip_at; rewrite Hmatch].
  destruct (strip_at_cut str i s Hmatch) as [Hs ->].
  rewrite (f_equal (filter P) Hs).
  by rewrite !filter_app, (filter_entry str Hstr).
Qed.

Lemma strip_loop_filter fuel str :
  str ∈ remove_list ->
  forall i s, filter P (strip_loop fuel str i s) = filter P s.
Proof.
  intros Hstr. induction fuel as [|fuel IH]; intros i s; [done|].
  rewrite strip_loop_step. case_decide; [|done].
  by rewrite IH, strip_at_filter.
Qed.

Lemma fix_entries_filter (self : std_string -> std_string) :
  (forall s', filter P (self s') = filter P s') ->
  forall entries s,
    (forall p, p ∈ entries -> p ∈ remove_list) ->
    filter P (fix_entries self entries s) = filter P s.
Proof.
  intros Hself. induction entries as [|str rest IH]; intros s Hin; [done|].
  assert (Hstr : str ∈ remove_list) by (apply Hin; by left).
  cbn [fix_entries]. destruct (starts_with s str) eqn:Hlead.
  - rewrite Hself, (f_equal (filter P) (starts_with_split s str Hlead)).
    by rewrite filter_app, (filter_entry str Hstr).
  - rewrite IH by (intros p Hp; apply Hin; by right).
    by apply strip_loop_filter.
Qed.

Lemma fix_type_name_fuel_filter fuel :
  forall s, filter P (fix_type_name_fuel fuel s) = filter P s.
Proof.
  induction fuel as [|fuel IH]; intros s; [done|].
  by apply fix_entries_filter.
Qed.

End Kept.

(** X4: [fix_type_name] removes nothing but entries of its list: the
    characters of any kind that occurs in no entry (['<'], ['>'], [','],
    digits, capitals, ...) are all kept, in their order. *)
Theorem fix_type_name_keeps_other_characters :
  forall (P : ascii -> Prop) (dec : forall c, Decision (P c))
         (s : std_string),
    (forall p c, p ∈ remove_list -> c ∈ p -> ~ P c) ->
    filter P (fix_type_name s) = filter P s.
Proof.
  intros P dec s Hent. by apply fix_type_name_fuel_filter.
Qed.

Lemma strip_loop_plain fuel str s :
  Forall (fun c => c <> "<"%char) s ->
  forall i, strip_loop fuel str i s = s.
Proof.
  intros Hs. induction fuel as [|fuel IH]; intros i; [done|].
  rewrite strip_loop_step. case_decide; [|done].
  unfold strip_at. destruct (char_at_is s i "<") eqn:Hlt; [|apply IH].
  apply char_at_is_lookup in Hlt. rewrite Forall_forall in Hs.
  exfalso. apply (Hs "<"%char); [|done]. by eapply list_elem_of_lookup_2.
Qed.

Lemma fix_entries_plain_suffix (self : std_string -> std_string) (n : nat) :
  (forall s', (length s' < n)%nat -> Forall (fun c => c <> "<"%char) s' ->
              self s' `suffix_of` s') ->
  forall entries s,
    (forall p, p ∈ entries -> p ∈ remove_list) ->
    (length s <= n)%nat ->
    Forall (fun c => c <> "<"%char) s ->
    fix_entries self entries s `suffix_of` s.
Proof.
  intros Hself.
  induction entries as [|str rest IH]; intros s Hin Hlen Hs; [done|].
  cbn [fix_entries]. destruct (starts_with s str) eqn:Hlead.
  - etrans; [apply Hself|apply suffix_drop]; [|by apply Forall_drop].
    apply starts_with_length in Hlead.
    destruct (remove_list_entries str) as [_ Hpos]; [apply Hin; by left|].
    unfold substr, strlen. rewrite length_drop. lia.
  - unfold strip_after_lt. rewrite strip_loop_plain by done.
    apply IH; [|done|done]. intros p Hp. apply Hin. by right.
Qed.

Lemma fix_type_name_fuel_plain_suffix fuel :
  forall s, (length s < fuel)%nat ->
            Forall (fun c => c <> "<"%char) s ->
            fix_type_name_fuel fuel s `suffix_of` s.
Proof.
  induction fuel as [|fuel IH]; intros s Hlen Hs; [lia|].
  cbn [fix_type_name_fuel].
  apply (fix_entries_plain_suffix _ (length s)); [|done|done|done].
  intros s' Hlen' Hs'. apply IH; [lia|done].
Qed.

(** X5: on a name without ['<'], [fix_type_name] drops a front part and
    returns the rest, which begins with no entry of the list; a second
    application returns the same. *)
Theorem fix_type_name_plain_name :
  forall s,
    Forall (fun c => c <> "<"%char) s ->
    fix_type_name s `suffix_of` s /\
    (forall p, p ∈ remove_list -> starts_with (fix_type_name s) p = false) /\
    fix_type_name (fix_type_name s) = fix_type_name s.
Proof.
  intros s Hs. split; [|split].
  - apply fix_type_name_fuel_plain_suffix; [lia|done].
  - intros p Hp. apply fix_type_name_fuel_leading; [lia|done].
  - by apply fix_type_name_plain.
Qed.

(** X6: the bounds put on the two loops are never met.  [fix_type_name]
    is the loop over the list that calls [fix_type_name] itself on the
    rest, as in the source; more rounds of the inner loop than the
    string has characters, or more nested calls, change nothing. *)
Theorem fix_type_name_source_equation :
  forall s,
    fix_type_name s = fix_entries fix_type_name remove_list s /\
    (forall fuel, (length s < fuel)%nat ->
                  fix_type_name_fuel fuel s = fix_type_name s) /\
    (forall str i fuel, (length s - i <= fuel)%nat ->
                        strip_loop fuel str i s
                        = strip_loop (length s - i) str i s).
Proof.
  intros s. split; [apply fix_type_name_unfold|]. split.
  - intros fuel Hf. apply fix_type_name_fuel_enough; lia.
  - intros str i fuel Hf. apply strip_loop_fuel_enough; lia.
Qed.

End TypeNamesMore.

(** ** The ring of temporaries, continued *)

Section RingMore.

Context {T : Type}.
Implicit Types (st : ring_state T) (store : gmap nat (ring_state T)).
Implicit Types (value : list T) (values : list (list T)).
Implicit Types (calls : list (nat * list T)).

Lemma ring_writes_snoc values value st :
  ring_writes (values ++ [value]) st
  = (buffer_string value (ring_writes values st)).2.
Proof. unfold ring_writes. by rewrite foldl_app. Qed.

Lemma ring_writes_ok values :
  forall st, ring_ok st -> ring_ok (ring_writes values st).
Proof.
  induction values as [|v values IH]; intros st Hok; [done|].
  apply IH. by apply buffer_string_ok.
Qed.

Lemma ring_writes_index values :
  forall st, ring_ok st ->
    index (ring_writes values st)
    = (index st + Z.of_nat (length values)) mod 16.
Proof.
  induction values as [|v values IH]; intros st Hok.
  - cbn. rewrite Z.add_0_r, Z.mod_small; [done|apply Hok].
  - change (ring_writes (v :: values) st)
      with (ring_writes values (buffer_string v st).2).
    rewrite IH by by apply buffer_string_ok.
    cbn [buffer_string snd index]. rewrite next_index by apply Hok.
    rewrite Zplus_mod_idemp_l. f_equal. cbn [length]. lia.
Qed.

(** The state of a thread after a run is made by its own calls. *)
Lemma run_thread_state t calls :
  forall store,
    thread_state t (run calls store)
    = ring_writes (values_on t calls) (thread_state t store).
Proof.
  induction calls as [|[t' v] calls IH]; intros store; [done|].
  change (run ((t', v) :: calls) store)
    with (run calls (buffer_string_on t' v store).2).
  rewrite IH, buffer_string_on_state. unfold values_on.
  destruct (decide (t' = t)) as [->|Hne].
  - by rewrite filter_cons_True.
  - by rewrite filter_cons_False.
Qed.

Lemma calls_on_values t calls : calls_on t calls = length (values_on t calls).
Proof. unfold calls_on, values_on. by rewrite length_fmap. Qed.

(** X7: the state of a thread depends on its own calls alone, in their
    order: calls of other threads, wherever they fall in between, change
    neither its ring nor its index. *)
Theorem buffer_string_threads_apart :
  forall (calls : list (nat * list T)) (t : nat)
         (store : gmap nat (ring_state T)),
    thread_state t (run calls store)
    = thread_state t (run (filter (fun c => c.1 = t) calls) store).
Proof.
  intros calls t store. rewrite !run_thread_state. f_equal.
  unfold values_on. f_equal. symmetry. apply list_filter_filter_l.
  done.
Qed.

(** X8: counted from the start of the thread, the call number [n]
    (the first being number 0) returns the pointer into slot
    [n mod 16], and leaves the index at [(n + 1) mod 16]. *)
Theorem buffer_string_pointer_of_call :
  forall (history : list (nat * list T)) (t : nat) (value : list T),
    (buffer_string_on t value (run history ∅)).1
    = (calls_on t history mod 16)%nat /\
    index (thread_state t (buffer_string_on t value (run history ∅)).2)
    = (Z.of_nat (calls_on t history) + 1) mod 16.
Proof.
  intros history t value.
  assert (Hidx : index (thread_state t (run history ∅))
                 = Z.of_nat (calls_on t history) mod 16).
  { rewrite run_thread_state, ring_writes_index, calls_on_values.
    - unfold thread_state. by rewrite lookup_empty.
    - apply empty_store_ok. }
  split.
  - unfold buffer_string_on, buffer_string.
    cbn -[Nat.modulo Z.modulo thread_state]. rewrite Hidx.
    replace (Z.of_nat (calls_on t history) mod 16)
      with (Z.of_nat (calls_on t history mod 16))
      by (by rewrite Nat2Z.inj_mod).
    apply Nat2Z.id.
  - rewrite buffer_string_on_state, decide_True by done.
    cbn [buffer_string snd index]. rewrite next_index.
    + rewrite Hidx, Zplus_mod_idemp_l. done.
    + apply (run_ok history ∅ empty_store_ok t).
Qed.

Lemma mod_16_apart (i n : nat) :
  (i < n)%nat -> (n - i < 16)%nat -> (i mod 16 <> n mod 16)%nat.
Proof.
  intros Hlt Hnear Heq.
  pose proof (Nat.div_mod_eq i 16). pose proof (Nat.div_mod_eq n 16).
  lia.
Qed.

(** The ring of a thread that made the calls [values], and no other. *)
Lemma ring_writes_contents values :
  let st := ring_writes values (@ring_init T) in
  (forall i v, values !! i = Some v -> (length values - i <= 16)%nat ->
               ring_buffer st !! (i mod 16)%nat = Some v) /\
  (forall j, (length values <= j < 16)%nat -> ring_buffer st !! j = Some []).
Proof.
  induction values as [|value values IH] using rev_ind.
  - split; [by intros i v Hi|]. intros j Hj.
    unfold ring_writes, ring_init. cbn [foldl ring_buffer].
    change (Z.to_nat ring_size) with 16%nat.
    apply lookup_replicate. split; [done|]. cbn [length] in Hj. lia.
  - destruct IH as [IH1 IH2]. cbn zeta in *.
    rewrite ring_writes_snoc, length_app. cbn [length].
    assert (Hok : ring_ok (ring_writes values (@ring_init T)))
      by apply ring_writes_ok, ring_init_ok.
    destruct Hok as [Hlen _].
    assert (Hidx : Z.to_nat (index (ring_writes values (@ring_init T)))
                   = (length values mod 16)%nat).
    { rewrite ring_writes_index by apply ring_init_ok. cbn [ring_init index].
      rewrite Z.add_0_l.
      replace (Z.of_nat (length values) mod 16)
        with (Z.of_nat (length values mod 16))
        by (by rewrite Nat2Z.inj_mod).
      apply Nat2Z.id. }
    cbn [buffer_string snd ring_buffer]. rewrite Hidx. split.
    + intros i v Hi Hnear.
      destruct (decide (i = length values)) as [->|Hne].
      * rewrite lookup_app_r, Nat.sub_diag in Hi by lia.
        injection Hi as ->. apply list_lookup_insert_eq.
        rewrite Hlen. apply Nat.mod_upper_bound. lia.
      * assert (Hi' : (i < length values)%nat).
        { apply lookup_lt_Some in Hi. rewrite length_app in Hi.
          cbn in Hi. lia. }
        rewrite lookup_app_l in Hi by done.
        rewrite list_lookup_insert_ne; [apply IH1; [done|lia]|].
        intros Heq. by apply (mod_16_apart i (length values)); [|lia|].
    + intros j Hj. rewrite list_lookup_insert_ne; [apply IH2; lia|].
      rewrite Nat.mod_small by lia. lia.
Qed.

(** X9: what the ring of a thread holds after any run from the start.
    Each of the thread's last 16 values lies in the slot its number
    names, modulo 16; the slots the thread has not reached yet hold the
    empty string. *)
Theorem buffer_string_ring_contents :
  forall (history : list (nat * list T)) (t : nat),
    let values := values_on t history in
    let st := thread_state t (run history ∅) in
    (forall i v, values !! i = Some v -> (length values - i <= 16)%nat ->
                 ring_buffer st !! (i mod 16)%nat = Some v) /\
    (forall j, (length values <= j < 16)%nat ->
               ring_buffer st !! j = Some []).
Proof.
  intros history t. cbn zeta. rewrite run_thread_state.
  replace (thread_state t ∅) with (@ring_init T)
    by (unfold thread_state; by rewrite lookup_empty).
  apply ring_writes_contents.
Qed.

End RingMore.

(** ** [as_string], continued *)

Section AsStringMore.

Lemma returns_string_complete :
  forall T (tr : traits T) (x : T),
    returns_string tr = false -> as_string tr x = None.
Proof.
  intros T [[f|] [g|] b r] x Hret; try discriminate.
  destruct b; try discriminate; cbn [returns_string] in Hret.
  - cbn [as_string]. by rewrite Hret.
  - destruct r; [done|]. cbn [as_string]. by rewrite Hret.
Qed.

(** X10: whether [as_string] yields a string is a matter of the type
    alone: a type either gets a string for every value, or for none. *)
Theorem as_string_by_type :
  forall T (tr : traits T),
    (returns_string tr = true /\
     forall x, exists s, as_string tr x = Some s) \/
    (returns_string tr = false /\ forall x, as_string tr x = None).
Proof.
  intros T tr. destruct (returns_string tr) eqn:Hret; [left|right].
  - split; [done|]. intros x. by apply returns_string_sound.
  - split; [done|]. intros x. by apply returns_string_complete.
Qed.

Lemma c_strlen_terminated (s rest : std_string) :
  Forall (fun c => c <> zero) s -> c_strlen (s ++ zero :: rest) = length s.
Proof.
  induction 1 as [|c s Hc _ IH]; [reflexivity|].
  cbn. destruct (Ascii.eqb_spec c zero); [done|]. by rewrite IH.
Qed.

(** X11: a narrow C-string is copied up to its terminator, whatever
    lies behind it in memory; the copy holds no terminator. *)
Theorem as_string_c_string :
  forall T (x : T) (mem : T -> std_string) (r : iteration T)
         (s rest : std_string),
    Forall (fun c => c <> zero) s ->
    mem x = s ++ zero :: rest ->
    as_string (Traits None None (is_c_str mem) r) x = Some s.
Proof.
  intros T x mem r s rest Hs Hmem. cbn [as_string].
  rewrite Hmem, c_strlen_terminated by done.
  by rewrite take_app_length.
Qed.

Lemma widen_narrow c : 0 <= c < 256 -> widen (narrow c) = c.
Proof.
  intros Hc. unfold widen, narrow. rewrite Z.mod_small by done.
  rewrite N_ascii_embedding; [lia|].
  change 256%N with (Z.to_N 256). lia.
Qed.

Lemma narrow_period c k : narrow (c + 256 * k) = narrow c.
Proof.
  unfold narrow. f_equal. f_equal.
  rewrite Z.mul_comm, Z.mod_add; lia.
Qed.

(** X12: a wide string whose code units are all below 256 comes back
    from its narrow string unit for unit; code units that differ by a
    multiple of 256 give the same character, so above 255 the
    conversion loses the difference. *)
Theorem as_string_wide_latin1 :
  forall T (x : T) (units : T -> std_wstring) (r : iteration T),
    Forall (fun c => 0 <= c < 256) (units x) ->
    (exists out,
        as_string (Traits None None (is_wstring units) r) x = Some out /\
        widen <$> out = units x) /\
    (forall c k, narrow (c + 256 * k) = narrow c).
Proof.
  intros T x units r Hlow. split; [|apply narrow_period].
  exists (narrow <$> units x). split; [reflexivity|].
  induction Hlow as [|c w Hc _ IH]; [reflexivity|].
  cbn [fmap list_fmap]. by rewrite widen_narrow, IH.
Qed.

Lemma duration_loop_first_match {R : Type} (rep : duration_rep R) (x : R) :
  forall table,
    Exists (fun e => e.2 = true) table ->
    exists pre dur name last post,
      table = pre ++ (dur, name, last) :: post /\
      duration_loop rep x table
      = Some (flt2str (quotient rep x dur) ++ name) /\
      Forall (fun e => e.2 = false /\ greater rep x e.1.1 = false) pre /\
      (last = true \/ greater rep x dur = true).
Proof.
  induction table as [|[[dur name] last] rest IH]; intros Hex.
  - inversion Hex.
  - cbn [duration_loop]. destruct last.
    + exists [], dur, name, true, rest. repeat split; [constructor|by left].
    + destruct (greater rep x dur) eqn:Hgt.
      * exists [], dur, name, false, rest.
        repeat split; [constructor|by right].
      * cbn [orb]. destruct IH as (pre & d & n & l & post & -> & Hr & Hpre & Hl).
        { inversion Hex as [? ? Hh|]; subst; [discriminate|done]. }
        exists ((dur, name, false) :: pre), d, n, l, post.
        repeat split; [done| |done]. by constructor.
Qed.

(** X13: the unit of a duration is the first entry of the table that
    the value exceeds, the last entry when it exceeds none: every entry
    in front of the one printed is unflagged and not exceeded. *)
Theorem as_string_duration_first_match :
  forall (R : Type) (rep : duration_rep R) (x : R),
    exists pre dur name last post,
      durations rep = pre ++ (dur, name, last) :: post /\
      as_string_duration rep x
      = Some (flt2str (quotient rep x dur) ++ name) /\
      Forall (fun e => e.2 = false /\ greater rep x e.1.1 = false) pre /\
      (last = true \/ greater rep x dur = true).
Proof.
  intros R rep x. apply duration_loop_first_match, durations_flagged.
Qed.

(** X14: with integer ticks, a longer duration is never printed in a
    finer unit than a shorter one.  For [x <= y], the entry of the table
    hrs, min, sec, ms, ns with which [as_string] prints [y] stands no
    later in the table than the entry with which it prints [x]. *)
Theorem as_string_duration_unit_monotone :
  forall (base : period) (x y : Z),
    x <= y ->
    exists (i j : nat) durx namex lastx dury namey lasty,
      durations (integer_ticks base) !! i = Some (durx, namex, lastx) /\
      durations (integer_ticks base) !! j = Some (dury, namey, lasty) /\
      as_string (duration_traits base) x
      = Some (flt2str (quotient (integer_ticks base) x durx) ++ namex) /\
      as_string (duration_traits base) y
      = Some (flt2str (quotient (integer_ticks base) y dury) ++ namey) /\
      (j <= i)%nat.
Proof.
  intros base x y Hxy.
  destruct (duration_loop_first_match (integer_ticks base) x
              (durations (integer_ticks base)) (durations_flagged _))
    as (prex & durx & namex & lastx & postx & Hsx & Hx & Hprex & Htakex).
  destruct (duration_loop_first_match (integer_ticks base) y
              (durations (integer_ticks base)) (durations_flagged _))
    as (prey & dury & namey & lasty & posty & Hsy & Hy & Hprey & Htakey).
  exists (length prex), (length prey), durx, namex, lastx, dury, namey, lasty.
  split; [rewrite Hsx; apply list_lookup_middle; done|].
  split; [rewrite Hsy; apply list_lookup_middle; done|].
  split; [exact Hx|]. split; [exact Hy|].
  destruct (decide (length prey <= length prex)%nat) as [|Hlt]; [done|].
  exfalso.
  assert (Hin : prey !! length prex = Some (durx, namex, lastx)).
  { rewrite <- (lookup_app_l prey ((dury, namey, lasty) :: posty)) by lia.
    rewrite <- Hsy, Hsx. apply list_lookup_middle. done. }
  rewrite Forall_lookup in Hprey.
  destruct (Hprey _ _ Hin) as [Hflag Hnot]. cbn [fst snd] in Hflag, Hnot.
  cbn [greater integer_ticks] in Hnot, Htakex.
  destruct Htakex as [->|Hgt]; [done|].
  apply Z.ltb_lt in Hgt. apply Z.ltb_ge in Hnot. lia.
Qed.

End AsStringMore.

(** ** [hex] and [offset], continued *)

Section HexMore.

Lemma digit_char_lower_hex d :
  0 <= d < 16 -> is_lower_hex_digit (digit_char d) = true.
Proof.
  intros Hd.
  assert (Hcases : d = 0 \/ d = 1 \/ d = 2 \/ d = 3 \/ d = 4 \/ d = 5 \/
                   d = 6 \/ d = 7 \/ d = 8 \/ d = 9 \/ d = 10 \/ d = 11 \/
                   d = 12 \/ d = 13 \/ d = 14 \/ d = 15) by lia.
  repeat (destruct Hcases as [->|Hcases]; [reflexivity|]).
  subst d. reflexivity.
Qed.

Lemma digits_fuel_lower_hex fuel :
  forall n acc,
    Forall (fun c => is_lower_hex_digit c = true) acc ->
    Forall (fun c => is_lower_hex_digit c = true) (digits_fuel fuel 16 n acc).
Proof.
  induction fuel as [|fuel IH]; intros n acc Hacc; [done|].
  assert (Hd : Forall (fun c => is_lower_hex_digit c = true)
                      (digit_char (n mod 16) :: acc)).
  { constructor; [|done]. apply digit_char_lower_hex.
    apply Z.mod_pos_bound. lia. }
  cbn [digits_fuel]. destruct (n / 16 =? 0); [done|]. by apply IH.
Qed.

(** The number of digits is the least that holds the value. *)
Lemma digits_fuel_width fuel :
  forall n acc,
    0 < n < 16 ^ Z.of_nat fuel ->
    exists k : nat,
      (k < fuel)%nat /\
      length (digits_fuel fuel 16 n acc) = (S k + length acc)%nat /\
      16 ^ Z.of_nat k <= n < 16 ^ Z.of_nat (S k).
Proof.
  induction fuel as [|fuel IH]; intros n acc Hn.
  - change (16 ^ Z.of_nat 0) with 1 in Hn. lia.
  - cbn [digits_fuel]. pose proof (Z.div_mod n 16 ltac:(lia)) as Hdm.
    pose proof (Z.mod_pos_bound n 16 ltac:(lia)) as Hm.
    destruct (Z.eqb_spec (n / 16) 0) as [Hq|Hq].
    + exists 0%nat. split; [lia|]. split; [done|].
      change (16 ^ Z.of_nat 0) with 1. change (16 ^ Z.of_nat 1) with 16. lia.
    + assert (Hq' : 0 <= n / 16) by (apply Z.div_pos; lia).
      replace (Z.of_nat (S fuel)) with (Z.succ (Z.of_nat fuel)) in Hn by lia.
      rewrite Z.pow_succ_r in Hn by lia.
      destruct (IH (n / 16) (digit_char (n mod 16) :: acc))
        as (k & Hk & Hlen & Hlo & Hhi); [lia|].
      exists (S k). split; [lia|]. split; [rewrite Hlen; cbn; lia|].
      replace (Z.of_nat (S (S k))) with (Z.succ (Z.of_nat (S k))) by lia.
      replace (Z.of_nat (S k)) with (Z.succ (Z.of_nat k)) in * by lia.
      rewrite !Z.pow_succ_r in * by lia. lia.
Qed.

(** X15: the text of [hex] is the sign part and between 1 and 16
    characters out of [0-9a-f]; for a value other than 0 their number
    [k] is the least possible: [16^(k-1) <= |n| < 16^k].  The whole text
    has between 3 and 19 characters. *)
Theorem hex_shape :
  forall (is_signed : bool) (n : Z),
    (if is_signed then in_int64 n else in_uint64 n) ->
    exists digits : std_string,
      hex is_signed n
      = (if n <? 0 then lit "-0x" else lit "0x") ++ digits /\
      Forall (fun c => is_lower_hex_digit c = true) digits /\
      (1 <= length digits <= 16)%nat /\
      (n <> 0 ->
       16 ^ (Z.of_nat (length digits) - 1) <= Z.abs n
       < 16 ^ Z.of_nat (length digits)) /\
      (3 <= length (hex is_signed n) <= 19)%nat.
Proof.
  intros is_signed n Hn. exists (lower_hex (Z.abs n)).
  assert (Habs : 0 <= Z.abs n < 2 ^ 64).
  { destruct is_signed; unfold in_int64, in_uint64 in Hn; lia. }
  assert (Hlen : (1 <= length (lower_hex (Z.abs n)) <= 16)%nat /\
                 (n <> 0 ->
                  16 ^ (Z.of_nat (length (lower_hex (Z.abs n))) - 1)
                  <= Z.abs n
                  < 16 ^ Z.of_nat (length (lower_hex (Z.abs n))))).
  { destruct (Z.eq_dec n 0) as [->|Hnz].
    { split; [|done]. change (lower_hex (Z.abs 0)) with ["0"%char].
      cbn [length]. lia. }
    destruct (digits_fuel_width 16 (Z.abs n) []) as (k & Hk & Hl & Hb);
      [change (16 ^ Z.of_nat 16) with (2 ^ 64); lia|].
    unfold lower_hex. rewrite Hl. cbn [length]. split; [lia|]. intros _.
    replace (Z.of_nat (S k + 0) - 1) with (Z.of_nat k) by lia.
    by replace (S k + 0)%nat with (S k) by lia. }
  destruct Hlen as [Hlen Hmin].
  split; [by apply hex_text|].
  split; [by apply digits_fuel_lower_hex|].
  split; [done|]. split; [done|].
  rewrite hex_text, length_app by done.
  destruct (n <? 0); unfold lit; cbn [list_ascii_of_string length]; lia.
Qed.

(** X16: for [0 < n < 2^63], [hex] of [-n] is [hex] of [n] with a
    ["-"] in front, the signed and the unsigned [hex] of [n] agree, and
    [offset] of [n] and of [-n] differ in their first character only. *)
Theorem hex_of_negation :
  forall n : Z,
    0 < n < 2 ^ 63 ->
    hex true (- n) = "-"%char :: hex true n /\
    hex true n = hex false n /\
    offset n = lit "+ " ++ hex true n /\
    offset (- n) = lit "- " ++ hex true n.
Proof.
  intros n Hn.
  rewrite !hex_text, !offset_text by (unfold in_int64, in_uint64; lia).
  rewrite Z.abs_opp.
  destruct (Z.ltb_spec (- n) 0); [|lia]. destruct (Z.ltb_spec n 0); [lia|].
  destruct (Z.leb_spec 0 n); [|lia]. destruct (Z.leb_spec 0 (- n)); [lia|].
  done.
Qed.

Lemma hex_parse (is_signed : bool) n :
  (if is_signed then in_int64 n else in_uint64 n) ->
  parse_signed_hex (hex is_signed n) = Some n.
Proof.
  intros Hn. rewrite hex_text by done.
  assert (Habs : in_uint64 (Z.abs n)).
  { unfold in_uint64.
    destruct is_signed; unfold in_int64, in_uint64 in Hn; lia. }
  destruct (Z.ltb_spec n 0) as [Hneg|Hpos].
  - change (parse_signed_hex (lit "-0x" ++ lower_hex (Z.abs n)))
      with (Z.opp <$> parse_digits 16 (lower_hex (Z.abs n))).
    rewrite parse_lower_hex by done. cbn. f_equal. lia.
  - change (parse_signed_hex (lit "0x" ++ lower_hex (Z.abs n)))
      with (parse_digits 16 (lower_hex (Z.abs n))).
    rewrite parse_lower_hex by done. f_equal. lia.
Qed.

(** X17: [hex] and [offset] tell values apart: two values of the type
    with the same text are the same value. *)
Theorem hex_offset_injective :
  forall (is_signed : bool) (m n : Z),
    (if is_signed then in_int64 m else in_uint64 m) ->
    (if is_signed then in_int64 n else in_uint64 n) ->
    (hex is_signed m = hex is_signed n -> m = n) /\
    (is_signed = true -> offset m = offset n -> m = n).
Proof.
  intros is_signed m n Hm Hn. split.
  - intros Heq. pose proof (hex_parse is_signed m Hm) as Hpm.
    rewrite Heq, hex_parse in Hpm by done. congruence.
  - intros -> Heq. rewrite !offset_text in Heq by done.
    assert (Hlow : lower_hex (Z.abs m) = lower_hex (Z.abs n)).
    { destruct (0 <=? m), (0 <=? n); by inversion Heq. }
    assert (Habs : Z.abs m = Z.abs n).
    { assert (Hp : parse_digits 16 (lower_hex (Z.abs m))
                   = parse_digits 16 (lower_hex (Z.abs n))) by by rewrite Hlow.
      unfold in_int64 in *.
      rewrite !parse_lower_hex in Hp by (unfold in_uint64; lia).
      congruence. }
    destruct (Z.leb_spec 0 m), (Z.leb_spec 0 n);
      try lia; by inversion Heq.
Qed.

End HexMore.

(** ** [static_type_name] and [dynamic_type_name] *)

Section TypeNameFunctions.

Lemma lower_hex_injective a b :
  in_uint64 a -> in_uint64 b -> lower_hex a = lower_hex b -> a = b.
Proof.
  intros Ha Hb Heq. pose proof (parse_lower_hex a Ha) as Hp.
  rewrite Heq, parse_lower_hex in Hp by done. congruence.
Qed.

Lemma digits_fuel_length fuel :
  forall base n acc,
    (length acc < length (digits_fuel (S fuel) base n acc)
     <= S fuel + length acc)%nat.
Proof.
  induction fuel as [|fuel IH]; intros base n acc.
  - cbn. destruct (n / base =? 0); cbn; lia.
  - cbn [digits_fuel]. destruct (n / base =? 0); [cbn; lia|].
    specialize (IH base (n / base) (digit_char (n mod base) :: acc)).
    cbn [digits_fuel length] in IH |- *. lia.
Qed.

(** X18: without RTTI the name of a type is ["Type"] and the
    hexadecimal [lt_typeid] of the type: it has between 5 and 20
    characters, so the buffer of 32 always holds it, types with different
    ids get different names, and [dynamic_type_name] gives the name of
    the static type.  With RTTI both names are prettified, and begin with
    no entry of the list. *)
Theorem type_name_without_rtti :
  forall (typeid_name dynamic_typeid_name : std_string) (id : Z),
    static_type_name false typeid_name id
    = Some (lit "Type" ++ lower_hex (wrap_uint64 id)) /\
    (5 <= length (lit "Type" ++ lower_hex (wrap_uint64 id)) <= 20)%nat /\
    dynamic_type_name false dynamic_typeid_name typeid_name id
    = static_type_name false typeid_name id /\
    (forall other id',
        in_uint64 id -> in_uint64 id' ->
        static_type_name false typeid_name id
        = static_type_name false other id' -> id = id') /\
    (forall name p,
        static_type_name true typeid_name id = Some name \/
        dynamic_type_name true dynamic_typeid_name typeid_name id
        = Some name ->
        p ∈ remove_list -> starts_with name p = false).
Proof.
  intros typeid_name dynamic_typeid_name id.
  assert (Hfmt : forall v, format (lit "Type%llx") [v]
                           = lit "Type" ++ lower_hex (wrap_uint64 v)).
  { intros v. change (lit "Type%llx") with (lit "Type" ++ lit "%llx").
    apply format_llx. unfold lit. cbn [list_ascii_of_string].
    repeat constructor; discriminate. }
  assert (Hlen : forall v,
             (5 <= length (lit "Type" ++ lower_hex (wrap_uint64 v)) <= 20)%nat).
  { intros v. rewrite length_app. unfold lower_hex.
    pose proof (digits_fuel_length 15 16 (wrap_uint64 v) []) as Hl.
    unfold lit. cbn [list_ascii_of_string length] in Hl |- *. lia. }
  assert (Hname : forall name v,
             static_type_name false name v
             = Some (lit "Type" ++ lower_hex (wrap_uint64 v))).
  { intros name v. unfold static_type_name, sprintf_s. rewrite Hfmt.
    rewrite decide_True; [done|]. specialize (Hlen v). lia. }
  split; [apply Hname|]. split; [apply Hlen|]. split; [done|]. split.
  - intros other id' Hid Hid' Heq. rewrite !Hname in Heq.
    injection Heq as Heq.
    unfold in_uint64, wrap_uint64 in *.
    apply lower_hex_injective in Heq;
      [|unfold in_uint64; apply Z.mod_pos_bound; lia..].
    rewrite !Z.mod_small in Heq; lia.
  - intros name p [Hn|Hn] Hp; injection Hn as <-;
      apply fix_type_name_fuel_leading; (lia || done).
Qed.

End TypeNameFunctions.

(** ** [fix_parameter] and [str] *)

Section Slots.

Context {T : Type}.

Implicit Types (s : slots T) (value : list T) (values : list (list T)).

Lemma buffer_strings_snoc values value s :
  buffer_strings (values ++ [value]) s
  = (buffer_string_ptr value (buffer_strings values s)).2.
Proof. unfold buffer_strings. by rewrite foldl_app. Qed.

Lemma buffer_strings_ring values :
  forall s, ring (buffer_strings values s) = ring_writes values (ring s).
Proof.
  induction values as [|v values IH]; intros s; [done|].
  exact (IH (buffer_string_ptr v s).2).
Qed.

Lemma buffer_string_ptr_ok value s :
  slots_ok s -> slots_ok (buffer_string_ptr value s).2.
Proof.
  intros [Hr Ha]. split; [by apply buffer_string_ok|].
  cbn. by rewrite length_insert.
Qed.

Lemma buffer_strings_ok values :
  forall s, slots_ok s -> slots_ok (buffer_strings values s).
Proof.
  induction values as [|v values IH]; intros s Hok; [done|].
  apply IH. by apply buffer_string_ptr_ok.
Qed.

(** A pointer is good right after the call that returned it. *)
Lemma read_fresh value s :
  slots_ok s ->
  read (buffer_string_ptr value s).2 (buffer_string_ptr value s).1
  = Some value.
Proof.
  intros [[Hl Hi] Ha]. unfold read. cbn.
  rewrite decide_True by (apply list_lookup_insert_eq; lia).
  apply list_lookup_insert_eq. lia.
Qed.

(** A call leaves the pointers into the other slots as they are. *)
Lemma read_other value s ptr :
  ptr.1 <> Z.to_nat (index (ring s)) ->
  read (buffer_string_ptr value s).2 ptr = read s ptr.
Proof.
  intros Hne. unfold read. cbn.
  by rewrite !list_lookup_insert_ne by done.
Qed.

(** A pointer returned [k] calls ago stays good while fewer than 16
    values have been stored since. *)
Lemma buffer_strings_kept values :
  forall s (k : nat) ptr v,
    slots_ok s ->
    (ptr.1 < 16)%nat ->
    read s ptr = Some v ->
    index (ring s) = (Z.of_nat ptr.1 + 1 + Z.of_nat k) mod 16 ->
    (k + length values < 16)%nat ->
    read (buffer_strings values s) ptr = Some v.
Proof.
  induction values as [|value values IH]; intros s k ptr v Hok Hptr Hv Hidx Hk;
    [done|].
  change (buffer_strings (value :: values) s)
    with (buffer_strings values (buffer_string_ptr value s).2).
  cbn [length] in Hk.
  apply (IH _ (S k)); [by apply buffer_string_ptr_ok | done | | | lia].
  - rewrite read_other; [done|].
    rewrite Hidx. intros Heq.
    pose proof (Z.mod_pos_bound (Z.of_nat ptr.1 + 1 + Z.of_nat k) 16).
    assert (Hz : (Z.of_nat ptr.1 + 1 + Z.of_nat k) mod 16 = Z.of_nat ptr.1)
      by lia.
    destruct (Z_lt_le_dec (Z.of_nat ptr.1 + 1 + Z.of_nat k) 16).
    + rewrite Z.mod_small in Hz by lia. lia.
    + replace (Z.of_nat ptr.1 + 1 + Z.of_nat k)
        with ((Z.of_nat ptr.1 + 1 + Z.of_nat k - 16) + 1 * 16) in Hz by lia.
      rewrite Z.mod_add, Z.mod_small in Hz by lia. lia.
  - destruct Hok as [Hok _].
    cbn [buffer_string_ptr snd ring buffer_string index].
    rewrite next_index by apply Hok.
    rewrite Hidx, Zplus_mod_idemp_l. f_equal. lia.
Qed.

(** The pointer a call returns is good through 15 further calls. *)
Lemma buffer_strings_after value values s :
  slots_ok s ->
  (length values < 16)%nat ->
  read (buffer_strings values (buffer_string_ptr value s).2)
       (buffer_string_ptr value s).1
  = Some value.
Proof.
  intros Hok Hlen.
  apply (buffer_strings_kept values _ 0);
    [by apply buffer_string_ptr_ok | | by apply read_fresh | | lia].
  - destruct Hok as [[_ Hi] _]. cbn. lia.
  - destruct Hok as [[_ Hi] _].
    cbn [buffer_string_ptr fst snd ring buffer_string index].
    rewrite next_index by done. f_equal. lia.
Qed.

(** The 16th further call assigns to the string it points into. *)
Lemma buffer_strings_round value values last s :
  slots_ok s ->
  length values = 15%nat ->
  read (buffer_strings (values ++ [last]) (buffer_string_ptr value s).2)
       (buffer_string_ptr value s).1
  = None /\
  ring_buffer
    (ring (buffer_strings (values ++ [last]) (buffer_string_ptr value s).2))
    !! (buffer_string_ptr value s).1.1 = Some last.
Proof.
  intros Hok Hlen. rewrite buffer_strings_snoc.
  set (mid := buffer_strings values (buffer_string_ptr value s).2).
  assert (Hmid : read mid (buffer_string_ptr value s).1 = Some value)
    by (apply buffer_strings_after; [done|lia]).
  assert (Hokm : slots_ok mid)
    by by apply buffer_strings_ok, buffer_string_ptr_ok.
  assert (Hidx : Z.to_nat (index (ring mid)) = (buffer_string_ptr value s).1.1).
  { unfold mid. rewrite buffer_strings_ring, ring_writes_index, Hlen
      by apply (buffer_string_ptr_ok value s Hok).
    destruct Hok as [[_ Hi] _].
    cbn [buffer_string_ptr fst snd ring buffer_string index].
    rewrite next_index by done. rewrite Zplus_mod_idemp_l.
    replace (index (ring s) + 1 + Z.of_nat 15)
      with (index (ring s) + 1 * 16) by lia.
    by rewrite Z.mod_add, Z.mod_small by lia. }
  destruct Hokm as [[Hl Hi] Ha].
  unfold read in Hmid |- *.
  destruct (decide (assigned mid !! (buffer_string_ptr value s).1.1
                    = Some (buffer_string_ptr value s).1.2)) as [Hc|]; [|done].
  cbn [buffer_string_ptr fst snd ring assigned buffer_string ring_buffer] in *.
  rewrite Hidx in *. split.
  - rewrite decide_False; [done|].
    rewrite list_lookup_insert_eq by lia. rewrite Hc. cbn. intros [=]. lia.
  - apply list_lookup_insert_eq. lia.
Qed.

End Slots.

Section Parameters.

Implicit Types (p : parameter) (ps : list parameter) (st : rings).
Implicit Types (order : list nat) (fs : gmap nat fixed) (f : fixed).

Lemma as_string_string_of {T : Type} (tr : traits T) (x : T) :
  returns_string tr = true -> as_string tr x = Some (string_of tr x).
Proof.
  intros Hret. destruct (returns_string_sound T tr Hret x) as [s Hs].
  unfold string_of. by rewrite Hs.
Qed.

(** The compiler refuses [fix_parameter] for the objects whose
    [as_string] returns nothing, and for no other parameter. *)
Lemma fix_parameter_refused p st :
  convertible p = false -> fix_parameter p st = None.
Proof.
  destruct p; try done. cbn [convertible fix_parameter]. intros Hret.
  by rewrite returns_string_complete.
Qed.

Lemma fix_parameter_accepted p st :
  convertible p = true -> is_Some (fix_parameter p st).
Proof.
  destruct p; try by eexists. cbn [convertible fix_parameter].
  intros Hret. rewrite as_string_string_of by done. by eexists.
Qed.

Lemma fix_parameter_rings p st f st' :
  fix_parameter p st = Some (f, st') ->
  narrow_ring st'
  = buffer_strings (option_list (narrow_text p)) (narrow_ring st) /\
  wide_ring st'
  = buffer_strings (option_list (wide_text p)) (wide_ring st).
Proof.
  destruct p; cbn [fix_parameter]; try (by intros [= <- <-]).
  destruct (as_string tr x) as [s|] eqn:Hs; [|done].
  cbn [mbind option_bind narrow_text wide_text]. unfold string_of.
  rewrite Hs. by intros [= <- <-].
Qed.

Lemma fix_parameter_ok p st f st' :
  fix_parameter p st = Some (f, st') -> rings_ok st -> rings_ok st'.
Proof.
  intros Hfix [Hn Hw]. unfold rings_ok.
  destruct (fix_parameter_rings p st f st' Hfix) as [-> ->].
  split; by apply buffer_strings_ok.
Qed.

(** What the formatter finds behind a fixed parameter once further
    values have gone into the rings, fewer than 16 into its own. *)
Lemma fix_parameter_stable p st f st1 st' narrow wide :
  rings_ok st ->
  fix_parameter p st = Some (f, st1) ->
  narrow_ring st' = buffer_strings narrow (narrow_ring st1) ->
  wide_ring st' = buffer_strings wide (wide_ring st1) ->
  (is_Some (narrow_text p) -> (length narrow < 16)%nat) ->
  (is_Some (wide_text p) -> (length wide < 16)%nat) ->
  pass st' f = value_of p.
Proof.
  intros [Hn Hw] Hfix Hnarrow Hwide Hln Hlw.
  assert (Hin : forall s,
    Some (into_ring s st) = Some (f, st1) ->
    (length narrow < 16)%nat ->
    pass st' f = va_chars s).
  { intros s Heq Hlen. apply (inj Some) in Heq.
    assert (Hf : f = fixed_slot (buffer_string_ptr s (narrow_ring st)).1)
      by exact (eq_sym (f_equal fst Heq)).
    assert (Hst : narrow_ring st1 = (buffer_string_ptr s (narrow_ring st)).2)
      by exact (eq_sym (f_equal (narrow_ring ∘ snd) Heq)).
    rewrite Hf. cbn [pass]. rewrite Hnarrow, Hst.
    by rewrite buffer_strings_after. }
  destruct p; cbn [fix_parameter] in Hfix; try (by injection Hfix as <- <-).
  - apply Hin; [done|]. by apply Hln.
  - apply (inj Some) in Hfix.
    assert (Hf : f = fixed_wslot (buffer_string_ptr w (wide_ring st)).1)
      by exact (eq_sym (f_equal fst Hfix)).
    assert (Hst : wide_ring st1 = (buffer_string_ptr w (wide_ring st)).2)
      by exact (eq_sym (f_equal (wide_ring ∘ snd) Hfix)).
    rewrite Hf. cbn [pass value_of]. rewrite Hwide, Hst.
    rewrite buffer_strings_after; [done|done|]. by apply Hlw.
  - destruct (as_string tr x) as [s|] eqn:Hs; [|done].
    cbn [mbind option_bind] in Hfix. cbn [value_of]. unfold string_of.
    rewrite Hs. apply Hin; [done|]. by apply Hln.
Qed.

Lemma fix_parameters_rings order ps :
  forall st fs st',
    fix_parameters order ps st = Some (fs, st') ->
    narrow_ring st'
    = buffer_strings (narrow_texts order ps) (narrow_ring st) /\
    wide_ring st'
    = buffer_strings (wide_texts order ps) (wide_ring st).
Proof.
  induction order as [|i order IH]; intros st fs st' Hfix.
  { by injection Hfix as <- <-. }
  cbn [fix_parameters] in Hfix. unfold narrow_texts, wide_texts.
  cbn [omap list_omap]. destruct (ps !! i) as [p|]; [|by apply IH in Hfix].
  cbn [mbind option_bind].
  destruct (fix_parameter p st) as [[f st1]|] eqn:Hp; [|done].
  cbn [mbind option_bind] in Hfix.
  destruct (fix_parameters order ps st1) as [[fs1 st2]|] eqn:Hrest; [|done].
  injection Hfix as <- <-.
  destruct (IH st1 fs1 st2 Hrest) as [-> ->].
  destruct (fix_parameter_rings p st f st1 Hp) as [-> ->].
  unfold narrow_texts, wide_texts.
  by destruct (narrow_text p), (wide_text p).
Qed.

Lemma fix_parameters_ok order ps st fs st' :
  fix_parameters order ps st = Some (fs, st') -> rings_ok st -> rings_ok st'.
Proof.
  intros Hfix [Hn Hw]. unfold rings_ok.
  destruct (fix_parameters_rings order ps st fs st' Hfix) as [-> ->].
  split; by apply buffer_strings_ok.
Qed.

(** A call compiles when every parameter is accepted, and only then. *)
Lemma fix_parameters_accepted order ps :
  Forall (fun p => convertible p = true) ps ->
  forall st, is_Some (fix_parameters order ps st).
Proof.
  intros Hall. induction order as [|i order IH]; intros st; [by eexists|].
  cbn [fix_parameters]. destruct (ps !! i) as [p|] eqn:Hp; [|apply IH].
  rewrite Forall_lookup in Hall.
  destruct (fix_parameter_accepted p st (Hall i p Hp)) as [[f st1] ->].
  cbn [mbind option_bind].
  destruct (IH st1) as [[fs st2] ->]. by eexists.
Qed.

Lemma fix_parameters_refused order ps :
  forall st i p,
    i ∈ order -> ps !! i = Some p -> convertible p = false ->
    fix_parameters order ps st = None.
Proof.
  induction order as [|i0 order IH]; intros st i p Hi Hp Hconv.
  { by apply elem_of_nil in Hi. }
  cbn [fix_parameters].
  destruct (decide (i = i0)) as [->|Hne].
  - rewrite Hp. by rewrite fix_parameter_refused.
  - apply elem_of_cons in Hi as [?|Hi]; [done|].
    destruct (ps !! i0) as [p0|]; [|by apply (IH _ i p)].
    destruct (fix_parameter p0 st) as [[f st1]|]; [|done].
    cbn [mbind option_bind]. by rewrite (IH st1 i p).
Qed.

(** Every parameter fixed in a call reads as its value when the
    formatter runs, if at most 16 of them went into each ring. *)
Lemma fix_parameters_pass order ps :
  forall st fs st',
    fix_parameters order ps st = Some (fs, st') ->
    rings_ok st ->
    NoDup order ->
    (length (narrow_texts order ps) <= 16)%nat ->
    (length (wide_texts order ps) <= 16)%nat ->
    forall i p,
      i ∈ order -> ps !! i = Some p ->
      exists f, fs !! i = Some f /\ pass st' f = value_of p.
Proof.
  induction order as [|i0 order IH];
    intros st fs st' Hfix Hok Hnd Hn Hw i p Hi Hp.
  { by apply elem_of_nil in Hi. }
  apply NoDup_cons in Hnd as [Hi0 Hnd].
  cbn [fix_parameters] in Hfix.
  unfold narrow_texts, wide_texts in Hn, Hw. cbn [omap list_omap] in Hn, Hw.
  destruct (ps !! i0) as [p0|] eqn:Hp0.
  - cbn [mbind option_bind] in Hn, Hw.
    destruct (fix_parameter p0 st) as [[f0 st1]|] eqn:Hfix0; [|done].
    cbn [mbind option_bind] in Hfix.
    destruct (fix_parameters order ps st1) as [[fs1 st2]|] eqn:Hrest;
      [|done].
    injection Hfix as <- <-.
    assert (Hn' : (length (narrow_texts order ps) <= 16)%nat).
    { unfold narrow_texts. destruct (narrow_text p0); cbn in Hn; lia. }
    assert (Hw' : (length (wide_texts order ps) <= 16)%nat).
    { unfold wide_texts. destruct (wide_text p0); cbn in Hw; lia. }
    destruct (decide (i = i0)) as [->|Hne].
    + assert (p = p0) as -> by congruence.
      exists f0. split; [apply lookup_insert_eq|].
      destruct (fix_parameters_rings order ps st1 fs1 st2 Hrest)
        as [Hrn Hrw].
      apply (fix_parameter_stable p0 st f0 st1 st2 _ _ Hok Hfix0 Hrn Hrw).
      * intros [s Hs]. rewrite Hs in Hn. cbn in Hn.
        unfold narrow_texts. lia.
      * intros [s Hs]. rewrite Hs in Hw. cbn in Hw.
        unfold wide_texts. lia.
    + rewrite lookup_insert_ne by done.
      apply (IH st1 fs1 st2); try done.
      * by apply (fix_parameter_ok p0 st f0 st1).
      * apply elem_of_cons in Hi as [?|?]; done.
  - cbn [mbind option_bind] in Hn, Hw.
    apply (IH st fs st'); try done.
    apply elem_of_cons in Hi as [->|?]; [congruence|done].
Qed.

Lemma omap_ext_elem {A B} (f g : A -> option B) (l : list A) :
  (forall a, a ∈ l -> f a = g a) -> omap f l = omap g l.
Proof.
  induction l as [|a l IH]; intros Hfg; [done|].
  cbn. rewrite (Hfg a) by by left.
  rewrite IH; [done|]. intros b Hb. apply Hfg. by right.
Qed.

Lemma omap_lookup_seq {A B} (g : A -> option B) (l : list A) :
  omap (fun i => l !! i ≫= g) (seq 0 (length l)) = omap g l.
Proof.
  induction l as [|a l IH] using rev_ind; [done|].
  rewrite length_app, Nat.add_1_r, seq_S, !omap_app. cbn [length].
  f_equal.
  - rewrite <- IH. apply omap_ext_elem. intros i Hi.
    apply elem_of_seq in Hi. by rewrite lookup_app_l by lia.
  - cbn. by rewrite lookup_app_r, Nat.sub_diag by lia.
Qed.

Lemma omap_Some_fmap {A B} (h : A -> B) (l : list A) :
  omap (fun a => Some (h a)) l = h <$> l.
Proof. induction l as [|a l IH]; [done|]. cbn. by rewrite IH. Qed.

Lemma arguments_values ps fs st :
  (forall i p, ps !! i = Some p ->
               exists f, fs !! i = Some f /\ pass st f = value_of p) ->
  arguments (length ps) fs st = value_of <$> ps.
Proof.
  intros Hall. unfold arguments.
  trans (omap (fun i => ps !! i ≫= fun p => Some (value_of p))
              (seq 0 (length ps))).
  - apply omap_ext_elem. intros i Hi. apply elem_of_seq in Hi.
    destruct (lookup_lt_is_Some_2 ps i ltac:(lia)) as [p Hp].
    destruct (Hall i p Hp) as (f & -> & Hf). rewrite Hp. cbn.
    by rewrite Hf.
  - rewrite omap_lookup_seq. apply omap_Some_fmap.
Qed.

Lemma texts_of_permutation {B} (g : parameter -> option B) order ps :
  order ≡ₚ seq 0 (length ps) ->
  length (omap (fun i => ps !! i ≫= g) order) = length (omap g ps).
Proof.
  intros Hperm. rewrite <- (omap_lookup_seq g ps).
  apply Permutation_length. by rewrite Hperm.
Qed.

Lemma as_lvalue_texts ps :
  (length (omap narrow_text (as_lvalue <$> ps))
   <= length (omap narrow_text ps))%nat /\
  omap wide_text (as_lvalue <$> ps) = [].
Proof.
  induction ps as [|p ps [IH1 IH2]]; [done|].
  destruct p; cbn in *; (split; [lia|done]).
Qed.

Lemma value_of_as_lvalue ps : value_of <$> (as_lvalue <$> ps) = value_of <$> ps.
Proof.
  rewrite <- list_fmap_compose. apply list_fmap_ext. by intros i [].
Qed.

Lemma convertible_as_lvalue ps :
  Forall (fun p => convertible p = true) ps ->
  Forall (fun p => convertible p = true) (as_lvalue <$> ps).
Proof.
  intros Hall. apply Forall_fmap. eapply Forall_impl; [exact Hall|].
  by intros [].
Qed.

(** What one pass over the parameters hands to the formatter. *)
Lemma fix_parameters_arguments order ps st fs st' :
  fix_parameters order ps st = Some (fs, st') ->
  rings_ok st ->
  order ≡ₚ seq 0 (length ps) ->
  (length (omap narrow_text ps) <= 16)%nat ->
  (length (omap wide_text ps) <= 16)%nat ->
  arguments (length ps) fs st' = value_of <$> ps.
Proof.
  intros Hfix Hok Hperm Hn Hw. apply arguments_values. intros i p Hp.
  apply (fix_parameters_pass order ps st fs st' Hfix); try done.
  - rewrite Hperm. apply NoDup_seq.
  - unfold narrow_texts. by rewrite texts_of_permutation.
  - unfold wide_texts. by rewrite texts_of_permutation.
  - rewrite Hperm. apply elem_of_seq. apply lookup_lt_Some in Hp. lia.
Qed.

(** X19: [fix_parameter] is refused for an object whose [as_string]
    returns nothing, and accepted for every other parameter.  It hands
    on a scalar, a pointer and a string passed by reference without
    touching a ring.  A string passed by value and an object go into the
    next slot of the narrow ring, a wide string passed by value into the
    next slot of the wide ring: one slot, the other ring untouched.  In
    every case the pointer returned is valid, and the formatter reads the
    parameter's own value behind it. *)
Theorem fix_parameter_one_slot :
  forall (p : parameter) (st : rings),
    rings_ok st ->
    (convertible p = false -> fix_parameter p st = None) /\
    (convertible p = true ->
     exists f st',
       fix_parameter p st = Some (f, st') /\
       rings_ok st' /\
       pass st' f = value_of p /\
       match p with
       | string_val _ | object _ _ =>
           (exists count,
               f = fixed_slot
                     (Z.to_nat (index (ring (narrow_ring st))), count)) /\
           index (ring (narrow_ring st'))
           = (index (ring (narrow_ring st)) + 1) mod 16 /\
           wide_ring st' = wide_ring st
       | wstring_val _ =>
           (exists count,
               f = fixed_wslot
                     (Z.to_nat (index (ring (wide_ring st))), count)) /\
           index (ring (wide_ring st'))
           = (index (ring (wide_ring st)) + 1) mod 16 /\
           narrow_ring st' = narrow_ring st
       | _ => st' = st
       end).
Proof.
  intros p st Hok. split; [apply fix_parameter_refused|]. intros Hconv.
  destruct (fix_parameter_accepted p st Hconv) as [[f st'] Hfix].
  exists f, st'. split; [done|].
  split; [by apply (fix_parameter_ok p st f st')|]. split.
  - apply (fix_parameter_stable p st f st' st' [] [] Hok Hfix);
      try done; cbn; lia.
  - destruct Hok as [[[_ Hn] _] [[_ Hw] _]].
    destruct p; cbn [fix_parameter] in Hfix;
      try (by injection Hfix as <- <-).
    + injection Hfix as <- <-.
      repeat split; [by eexists | by apply next_index].
    + injection Hfix as <- <-.
      repeat split; [by eexists | by apply next_index].
    + destruct (as_string tr x) as [s|]; [|done].
      injection Hfix as <- <-.
      repeat split; [by eexists | by apply next_index].
Qed.

(** What [str] returns when no ring is taken round. *)
Lemma str_params_values :
  forall (host : formatter) (order1 order2 : list nat) (fmt : std_string)
         (ps : list parameter) (st : rings),
    rings_ok st ->
    order1 ≡ₚ seq 0 (length ps) ->
    order2 ≡ₚ seq 0 (length ps) ->
    Forall (fun p => convertible p = true) ps ->
    (length (omap narrow_text ps) <= 16)%nat ->
    (length (omap wide_text ps) <= 16)%nat ->
    exists st',
      str_params host order1 order2 fmt ps st
      = Some (host fmt (value_of <$> ps), st') /\
      rings_ok st'.
Proof.
  intros host order1 order2 fmt ps st Hok Hp1 Hp2 Hconv Hn Hw.
  unfold str_params.
  destruct (fix_parameters_accepted order1 (as_lvalue <$> ps)
              (convertible_as_lvalue ps Hconv) st) as [[fs1 st1] Hfix1].
  rewrite Hfix1. cbn [mbind option_bind].
  destruct (fix_parameters_accepted order2 ps Hconv st1)
    as [[fs2 st2] Hfix2].
  rewrite Hfix2. cbn [mbind option_bind].
  pose proof (fix_parameters_ok _ _ _ _ _ Hfix1 Hok) as Hok1.
  pose proof (fix_parameters_ok _ _ _ _ _ Hfix2 Hok1) as Hok2.
  destruct (as_lvalue_texts ps) as [Hln Hlw].
  pose proof (fix_parameters_arguments _ _ _ _ _ Hfix1 Hok) as Hfirst.
  rewrite length_fmap in Hfirst.
  rewrite Hfirst, value_of_as_lvalue;
    [| done | lia | rewrite Hlw; cbn; lia].
  rewrite (fix_parameters_arguments _ _ _ _ _ Hfix2 Hok1 Hp2 Hn Hw).
  exists st2. split; [|done]. f_equal. f_equal.
  unfold vsnprintf. cbn [fst snd].
  replace (length (host fmt (value_of <$> ps)) + 1 - 1)%nat
    with (length (host fmt (value_of <$> ps))) by lia.
  rewrite firstn_all, Nat.sub_diag. apply app_nil_r.
Qed.

(** A call of [str] with a parameter that [fix_parameter] refuses does
    not compile. *)
Lemma str_params_refused host order1 order2 fmt ps st p :
  order1 ≡ₚ seq 0 (length ps) ->
  p ∈ ps -> convertible p = false ->
  str_params host order1 order2 fmt ps st = None.
Proof.
  intros Hperm Hin Hconv. apply list_elem_of_lookup in Hin as [i Hi].
  unfold str_params.
  rewrite (fix_parameters_refused order1 (as_lvalue <$> ps) st i
             (as_lvalue p)); [done| | |by destruct p].
  - rewrite Hperm. apply elem_of_seq. apply lookup_lt_Some in Hi. lia.
  - by rewrite list_lookup_fmap, Hi.
Qed.


Lemma scalars_have_no_text {B} (g : parameter -> option B) (vs : list Z) :
  (forall v, g (scalar v) = None) -> omap g (scalar <$> vs) = [].
Proof.
  intros Hg. induction vs as [|v vs IH]; [done|]. cbn. by rewrite Hg.
Qed.

Lemma fix_parameters_scalars order (vs : list Z) :
  forall st, exists fs,
    fix_parameters order (scalar <$> vs) st = Some (fs, st).
Proof.
  induction order as [|i order IH]; intros st; [by eexists|].
  cbn [fix_parameters]. rewrite list_lookup_fmap.
  destruct (vs !! i) as [v|]; [|apply IH].
  cbn [fmap option_fmap option_map fix_parameter mbind option_bind].
  destruct (IH st) as [fs ->]. by eexists.
Qed.

(** X21: on integer parameters this is the [str] that [hex] and
    [offset] call: whatever the order of evaluation and the state of the
    rings, the text is that of [str], and the rings are left as they
    were. *)
Theorem str_params_on_integers :
  forall (order1 order2 : list nat) (fmt : std_string) (vs : list Z)
         (st : rings),
    rings_ok st ->
    order1 ≡ₚ seq 0 (length vs) ->
    order2 ≡ₚ seq 0 (length vs) ->
    str_params format_integers order1 order2 fmt (scalar <$> vs) st
    = Some (str fmt vs, st).
Proof.
  intros order1 order2 fmt vs st Hok Hp1 Hp2.
  destruct (str_params_values format_integers order1 order2 fmt
              (scalar <$> vs) st Hok) as (st' & Htext & _);
    [by rewrite length_fmap | by rewrite length_fmap
     | by apply Forall_fmap, Forall_true
     | rewrite scalars_have_no_text by done; cbn; lia
     | rewrite scalars_have_no_text by done; cbn; lia |].
  rewrite Htext. f_equal. apply injective_projections.
  - cbn [fst]. rewrite str_format. unfold format_integers. f_equal.
    clear. induction vs as [|v vs IH]; [done|]. cbn. by rewrite IH.
  - cbn [snd]. unfold str_params in Htext.
    replace (as_lvalue <$> (scalar <$> vs)) with (scalar <$> vs) in Htext
      by (by rewrite <- list_fmap_compose).
    destruct (fix_parameters_scalars order1 vs st) as [fs1 Hfix1].
    destruct (fix_parameters_scalars order2 vs st) as [fs2 Hfix2].
    rewrite Hfix1 in Htext. cbn [mbind option_bind] in Htext.
    rewrite Hfix2 in Htext. cbn [mbind option_bind] in Htext.
    by injection Htext as _ <-.
Qed.

Lemma strings_by_value_texts (ss : list std_string) :
  omap narrow_text (string_val <$> ss) = ss.
Proof. induction ss as [|a ss IH]; [done|]. cbn. by rewrite IH. Qed.

(** X22: the bound of 16 is the exact one.  When 17 strings are passed
    by value and fixed from the first to the last, the 17th goes into the
    slot of the first: the string the first pointer points into has been
    assigned again, the slot holds the text of the 17th, and what the
    formatter gets as its first argument is a pointer that is no longer
    valid. *)
Theorem fix_parameters_ring_exhausted :
  forall (first last : std_string) (between : list std_string) (st : rings),
    rings_ok st ->
    length between = 15%nat ->
    let ps := string_val <$> (first :: between ++ [last]) in
    exists fs st' ptr,
      fix_parameters (seq 0 17) ps st = Some (fs, st') /\
      fs !! 0%nat = Some (fixed_slot ptr) /\
      read (narrow_ring st') ptr = None /\
      ring_buffer (ring (narrow_ring st')) !! ptr.1 = Some last /\
      arguments 17 fs st' !! 0%nat = Some va_invalid.
Proof.
  intros first last between st Hok Hlen ps.
  assert (Hps : length ps = 17%nat).
  { unfold ps. rewrite length_fmap. cbn. rewrite length_app. cbn. lia. }
  assert (Htexts : narrow_texts (seq 1 16) ps = between ++ [last]).
  { pose proof (omap_lookup_seq narrow_text ps) as Hall.
    rewrite Hps in Hall. unfold ps in Hall at 2.
    rewrite strings_by_value_texts in Hall.
    change (seq 0 17) with (0%nat :: seq 1 16) in Hall.
    cbn [omap list_omap] in Hall.
    change (ps !! 0%nat) with (Some (string_val first)) in Hall.
    cbn [mbind option_bind narrow_text] in Hall. by injection Hall. }
  assert (Hconv : Forall (fun p => convertible p = true) ps).
  { unfold ps. apply Forall_fmap, Forall_true. done. }
  set (st1 := (into_ring first st).2).
  destruct (fix_parameters_accepted (seq 1 16) ps Hconv st1)
    as [[fs1 st2] Hrest].
  destruct (fix_parameters_rings (seq 1 16) ps st1 fs1 st2 Hrest)
    as [Hring _].
  rewrite Htexts in Hring.
  change (narrow_ring st1)
    with (buffer_string_ptr first (narrow_ring st)).2 in Hring.
  destruct (buffer_strings_round first between last (narrow_ring st))
    as [Hread Hslot]; [apply Hok | done |].
  rewrite <- Hring in Hread, Hslot.
  exists (<[ 0%nat := (into_ring first st).1 ]> fs1), st2,
         (buffer_string_ptr first (narrow_ring st)).1.
  split; [|split; [apply lookup_insert_eq|split; [done|split; [done|]]]].
  - change (seq 0 17) with (0%nat :: seq 1 16). cbn [fix_parameters].
    change (ps !! 0%nat) with (Some (string_val first)).
    cbn [fix_parameter mbind option_bind].
    change (into_ring first st)
      with ((into_ring first st).1, st1).
    cbn [mbind option_bind]. fold st1. by rewrite Hrest.
  - unfold arguments. change (seq 0 17) with (0%nat :: seq 1 16).
    cbn [omap list_omap]. rewrite lookup_insert_eq.
    cbn [fmap option_fmap option_map].
    change ((?y :: ?l) !! 0%nat) with (Some y). cbn [lookup list_lookup].
    f_equal.
    change (into_ring first st).1
      with (fixed_slot (buffer_string_ptr first (narrow_ring st)).1).
    cbn [pass]. by rewrite Hread.
Qed.

End Parameters.

(** ** The further properties on concrete values *)

Lemma fix_type_name_strips_every_leading_entry_witness :
  lit "class " ∈ remove_list /\
  starts_with (fix_type_name (lit "vtil::class struct foo")) (lit "class ")
  = false.
Proof.
  assert (H : lit "class " ∈ remove_list) by (right; left).
  split; [exact H|].
  apply (fix_type_name_strips_every_leading_entry
           (lit "vtil::class struct foo") (lit "class ") H).
Defined.

Lemma fix_type_name_keeps_other_characters_witness :
  (forall p c, p ∈ remove_list -> c ∈ p -> c <> "<"%char) /\
  filter (fun c => c = "<"%char)
         (fix_type_name (lit "class a<struct b<enum c> >"))
  = filter (fun c => c = "<"%char) (lit "class a<struct b<enum c> >").
Proof.
  assert (H : forall p c, p ∈ remove_list -> c ∈ p -> c <> "<"%char).
  { intros p c Hp Hc. destruct (remove_list_entries p Hp) as [Hall _].
    rewrite Forall_forall in Hall. by apply Hall. }
  split; [exact H|].
  apply (fix_type_name_keeps_other_characters
           (fun c => c = "<"%char) _ (lit "class a<struct b<enum c> >") H).
Defined.

Lemma fix_type_name_plain_name_witness :
  Forall (fun c => c <> "<"%char) (lit "struct vtil::foo") /\
  fix_type_name (lit "struct vtil::foo") `suffix_of` lit "struct vtil::foo".
Proof.
  assert (H : Forall (fun c => c <> "<"%char) (lit "struct vtil::foo")).
  { unfold lit. cbn [list_ascii_of_string]. repeat constructor; discriminate. }
  split; [exact H|].
  apply (fix_type_name_plain_name (lit "struct vtil::foo") H).
Defined.

Lemma as_string_c_string_witness :
  Forall (fun c => c <> zero) (lit "hi") /\
  lit "hi" ++ zero :: lit "rest" = lit "hi" ++ zero :: lit "rest" /\
  as_string (Traits None None (is_c_str id) not_iterable)
            (lit "hi" ++ zero :: lit "rest")
  = Some (lit "hi").
Proof.
  assert (H : Forall (fun c => c <> zero) (lit "hi")).
  { unfold lit. cbn [list_ascii_of_string]. repeat constructor; discriminate. }
  split; [exact H|]. split; [reflexivity|].
  apply (as_string_c_string std_string (lit "hi" ++ zero :: lit "rest") id
           not_iterable (lit "hi") (lit "rest") H).
  reflexivity.
Defined.

Lemma as_string_wide_latin1_witness :
  Forall (fun c => 0 <= c < 256) [104; 233] /\
  exists out,
    as_string (Traits None None (is_wstring id) not_iterable) [104; 233]
    = Some out /\
    widen <$> out = [104; 233].
Proof.
  assert (H : Forall (fun c => 0 <= c < 256) [104; 233])
    by (repeat constructor; lia).
  split; [exact H|].
  apply (as_string_wide_latin1 (list Z) [104; 233] id not_iterable H).
Defined.

Lemma as_string_duration_unit_monotone_witness :
  1500 <= 90000 /\
  exists (i j : nat) durx namex lastx dury namey lasty,
    durations (integer_ticks milliseconds) !! i
    = Some (durx, namex, lastx) /\
    durations (integer_ticks milliseconds) !! j
    = Some (dury, namey, lasty) /\
    as_string (duration_traits milliseconds) 1500
    = Some (flt2str (quotient (integer_ticks milliseconds) 1500 durx)
            ++ namex) /\
    as_string (duration_traits milliseconds) 90000
    = Some (flt2str (quotient (integer_ticks milliseconds) 90000 dury)
            ++ namey) /\
    (j <= i)%nat.
Proof.
  assert (H : 1500 <= 90000) by lia.
  split; [exact H|].
  apply (as_string_duration_unit_monotone milliseconds 1500 90000 H).
Defined.

Lemma hex_shape_witness :
  in_int64 (-255) /\
  exists digits : std_string,
    hex true (-255)
    = (if -255 <? 0 then lit "-0x" else lit "0x") ++ digits /\
    Forall (fun c => is_lower_hex_digit c = true) digits /\
    (1 <= length digits <= 16)%nat /\
    (-255 <> 0 ->
     16 ^ (Z.of_nat (length digits) - 1) <= Z.abs (-255)
     < 16 ^ Z.of_nat (length digits)) /\
    (3 <= length (hex true (-255)) <= 19)%nat.
Proof.
  assert (H : in_int64 (-255)) by (unfold in_int64; lia).
  split; [exact H|].
  apply (hex_shape true (-255) H).
Defined.

Lemma hex_of_negation_witness :
  0 < 255 < 2 ^ 63 /\ hex true (- 255) = "-"%char :: hex true 255.
Proof.
  assert (H : 0 < 255 < 2 ^ 63) by lia.
  split; [exact H|].
  apply (hex_of_negation 255 H).
Defined.

Lemma hex_offset_injective_witness :
  in_int64 16 /\ in_int64 (-16) /\
  (hex true 16 = hex true (-16) -> 16 = -16).
Proof.
  assert (H1 : in_int64 16) by (unfold in_int64; lia).
  assert (H2 : in_int64 (-16)) by (unfold in_int64; lia).
  split; [exact H1|]. split; [exact H2|].
  apply (hex_offset_injective true 16 (-16) H1 H2).
Defined.

Lemma rings_init_ok : rings_ok rings_init.
Proof. repeat split; cbn; lia. Qed.

Lemma fix_parameter_one_slot_witness :
  rings_ok rings_init /\
  exists f st',
    fix_parameter (object (vector_traits int_traits) [1; 2; 3]) rings_init
    = Some (f, st') /\
    pass st' f = va_chars (lit "{1, 2, 3}").
Proof.
  split; [exact rings_init_ok|].
  destruct (fix_parameter_one_slot
              (object (vector_traits int_traits) [1; 2; 3]) rings_init
              rings_init_ok) as [_ Hacc].
  destruct (Hacc eq_refl) as (f & st' & Hfix & _ & Hpass & _).
  exists f, st'. split; [exact Hfix|]. rewrite Hpass. reflexivity.
Defined.

(** [str( "%s and %s: %llx", v, std::string{ "x" }, 255 )], the
    arguments evaluated in two different orders. *)
Example str_params_sample :
  fst <$> str_params vformat [2; 0; 1]%nat [0; 1; 2]%nat
                     (lit "%s and %s: %llx") sample_parameters rings_init
  = Some (lit "{1, 2, 3} and x: ff").
Proof. vm_compute. reflexivity. Qed.

(** A parameter whose [as_string] returns nothing: the call is refused. *)
Example str_params_void :
  str_params vformat [0]%nat [0]%nat (lit "%s")
             [object (Traits None None is_other not_iterable) tt]
             rings_init
  = None.
Proof. reflexivity. Qed.


Lemma str_params_on_integers_witness :
  rings_ok rings_init /\
  [1; 0]%nat ≡ₚ seq 0 (length [10; 11]) /\
  [0; 1]%nat ≡ₚ seq 0 (length [10; 11]) /\
  str_params format_integers [1; 0]%nat [0; 1]%nat (lit "%llx-%llx")
             (scalar <$> [10; 11]) rings_init
  = Some (str (lit "%llx-%llx") [10; 11], rings_init).
Proof.
  assert (H1 : [1; 0]%nat ≡ₚ seq 0 (length [10; 11])) by apply perm_swap.
  assert (H2 : [0; 1]%nat ≡ₚ seq 0 (length [10; 11])) by reflexivity.
  split; [exact rings_init_ok|]. split; [exact H1|]. split; [exact H2|].
  apply (str_params_on_integers [1; 0]%nat [0; 1]%nat (lit "%llx-%llx")
           [10; 11] rings_init rings_init_ok H1 H2).
Defined.

Lemma fix_parameters_ring_exhausted_witness :
  rings_ok rings_init /\
  length (replicate 15 (lit "m")) = 15%nat /\
  let ps :=
    string_val <$> (lit "first" :: replicate 15 (lit "m") ++ [lit "last"]) in
  exists fs st' ptr,
    fix_parameters (seq 0 17) ps rings_init = Some (fs, st') /\
    fs !! 0%nat = Some (fixed_slot ptr) /\
    read (narrow_ring st') ptr = None /\
    ring_buffer (ring (narrow_ring st')) !! ptr.1 = Some (lit "last") /\
    arguments 17 fs st' !! 0%nat = Some va_invalid.
Proof.
  split; [exact rings_init_ok|]. split; [reflexivity|].
  apply (fix_parameters_ring_exhausted (lit "first") (lit "last")
           (replicate 15 (lit "m")) rings_init rings_init_ok).
  reflexivity.
Defined.

(** The host's part on two edge values: a duration of no ticks is
    printed from 0 / 0, and a character above 127 is a negative [int]. *)
Example duration_of_zero :
  as_string (duration_traits milliseconds) 0 = Some (lit "-nanns").
Proof. vm_compute. reflexivity. Qed.

Example char_above_127 :
  as_string char_traits (ascii_of_N 233) = Some (lit "-23").
Proof. vm_compute. reflexivity. Qed.
